(** * Core Audio Format (CAF) container codec: caf.go

    A shallow embedding of the decoder and encoder of caf.go, and the
    properties of the codec stated over it.

    Modelling conventions.
    - A reader ([bufio.Reader] over an in-memory, fully buffered file) is the
      list of bytes it has not delivered yet.  Every decoder returns its
      value together with the bytes it left unread.
    - A writer is an in-memory buffer that never fails; every encoder
      returns the bytes it wrote.
    - Fixed-width integers are [Z] with the wrap-around written out.  [int]
      has 64 bits.  Floating-point fields are never interpreted by the
      codec: they are carried as their IEEE-754 bit patterns, which is what
      [math.Float64frombits] and [math.Float64bits] move in and out.  On its
      reflective path [encoding/binary] passes a [float32] through
      [float64], which leaves every pattern as it is except a signalling
      NaN; well-formed input ([valid_caf]) is taken to hold none.
    - A Go [string] and a [[]byte] are both [list byte].
    - Allocation of a slice of non-negative length succeeds (memory is not
      bounded); a negative length panics, as [make] does.
    - The debug message logged for an unrecognised tag is not modelled.
    - When a call returns an error or panics, what it had already stored
      in its receiver or written to the writer is not part of its outcome. *)

From Stdlib Require Import ZArith List Lia Bool.
From Stdlib Require Import Strings.Byte.
Import ListNotations.

Local Open Scope Z_scope.

(** ** Outcomes *)

(** The error values the codec can return: [io.EOF], [io.ErrUnexpectedEOF]
    and [errors.New("invalid caff header")]. *)
Inductive error : Type :=
| EOF
| ErrUnexpectedEOF
| ErrInvalidCaffHeader.

(** The outcome of a call: a value, a returned error, or a run-time panic.
    [OutOfFuel] belongs to the model only: loops whose termination is not
    structural carry a bound, and the totality lemmas below show that no
    entry point ever answers [OutOfFuel]. *)
Inductive result (A : Type) : Type :=
| Ok (a : A)
| Err (e : error)
| Panic
| OutOfFuel.

Arguments Ok {A} a.
Arguments Err {A} e.
Arguments Panic {A}.
Arguments OutOfFuel {A}.

Definition bind {A B : Type} (m : result A) (k : A -> result B) : result B :=
  match m with
  | Ok a => k a
  | Err e => Err e
  | Panic => Panic
  | OutOfFuel => OutOfFuel
  end.

Notation "x <- m ;; k" := (bind m (fun x => k))
  (at level 61, m at next level, right associativity).
Notation "' p <- m ;; k" := (bind m (fun p => k))
  (at level 61, p pattern, m at next level, right associativity).

(** ** Bytes and fixed-width integers *)

Definition stream : Type := list byte.

Definition byte_to_Z (b : byte) : Z := Z.of_N (Byte.to_N b).

(** The conversion [byte(x)]: the low eight bits. *)
Definition Z_to_byte (z : Z) : byte :=
  match Byte.of_N (Z.to_N (z mod 256)) with
  | Some b => b
  | None => x00
  end.

Definition uint64 (z : Z) : Z := z mod 2 ^ 64.

(** Reinterpretation of a [w]-bit pattern as a signed integer. *)
Definition signed (w : Z) (u : Z) : Z :=
  if u <? 2 ^ (w - 1) then u else u - 2 ^ w.

Definition int64 (z : Z) : Z := signed 64 (z mod 2 ^ 64).

(** ** The variable-length integer codec *)

(** First loop of [encodeInt]: the 7-bit groups of [cur], least significant
    first, appended to [byts]. *)
Fixpoint encodeInt_groups (fuel : nat) (cur : Z) (byts : list byte)
  : result (list byte) :=
  match fuel with
  | O => OutOfFuel
  | S fuel' =>
      let val := Z_to_byte (Z.land cur 127) in
      let cur := Z.shiftr cur 7 in
      let byts := byts ++ [val] in
      if cur =? 0 then Ok byts else encodeInt_groups fuel' cur byts
  end.

(** Second loop of [encodeInt]: indices [n - 1] down to [0] of [byts], each
    but index 0 with the high bit set. *)
Fixpoint encodeInt_emit (byts : list byte) (n : nat) : list byte :=
  match n with
  | O => []
  | S i =>
      let val := nth i byts x00 in
      let val :=
        if (0 <? Z.of_nat i) then Z_to_byte (Z.lor (byte_to_Z val) 128)
        else val in
      val :: encodeInt_emit byts i
  end.

(** A [uint64] has at most ten 7-bit groups. *)
Definition encodeInt (i : Z) : result (list byte) :=
  byts <- encodeInt_groups 10 (uint64 i) [] ;;
  Ok (encodeInt_emit byts (length byts)).

Fixpoint decodeInt_loop (res : Z) (bytesRead : Z) (r : stream)
  : result (Z * stream) :=
  match r with
  | [] => Err EOF
  | byt :: r' =>
      let bytesRead := bytesRead + 1 in
      let res := uint64 (Z.shiftl res 7) in
      let res := Z.lor res (Z.land (byte_to_Z byt) 127) in
      if (Z.land (byte_to_Z byt) 128 =? 0) || (8 <=? bytesRead)
      then Ok (res, r')
      else decodeInt_loop res bytesRead r'
  end.

Definition decodeInt (r : stream) : result (Z * stream) :=
  decodeInt_loop 0 0 r.

(** The words of the format description, for comparison with the loop
    above: the continuation flag of a byte and one accumulation step, the
    latter without any wrap-around. *)
Definition continuation (b : byte) : bool :=
  negb (Z.land (byte_to_Z b) 128 =? 0).

Definition accumulate (res : Z) (b : byte) : Z :=
  Z.lor (Z.shiftl res 7) (Z.land (byte_to_Z b) 127).

(** [varint_read r v rest]: [r] starts with at most eight bytes, all but
    the last carrying the continuation flag, the last either clearing it or
    being the eighth; [v] accumulates them and [rest] follows. *)
Definition varint_read (r : stream) (v : Z) (rest : stream) : Prop :=
  exists (pre : list byte) (lst : byte),
    r = pre ++ lst :: rest /\
    Forall (fun b => continuation b = true) pre /\
    (length pre < 8)%nat /\
    (continuation lst = false \/ length pre = 7%nat) /\
    v = fold_left accumulate (pre ++ [lst]) 0.


(** ** Readers and [encoding/binary] *)

(** [io.ReadFull] into a buffer of [n] bytes: nothing to read succeeds at
    once; an exhausted reader answers [io.EOF]; a reader holding some but
    not all of the bytes answers [io.ErrUnexpectedEOF]. *)
Definition ReadFull (n : Z) (r : stream) : result (list byte * stream) :=
  if n <=? 0 then Ok ([], r)
  else
    match r with
    | [] => Err EOF
    | _ :: _ =>
        if Z.of_nat (length r) <? n then Err ErrUnexpectedEOF
        else Ok (firstn (Z.to_nat n) r, skipn (Z.to_nat n) r)
    end.

(** [ioutil.ReadAll(io.LimitReader(r, n))]: up to [n] bytes, fewer when the
    reader ends first, none when [n <= 0]; the end of the reader is not an
    error for [ReadAll]. *)
Definition LimitReader_ReadAll (r : stream) (n : Z) : list byte * stream :=
  if n <=? 0 then ([], r)
  else if Z.of_nat (length r) <=? n then (r, [])
  else (firstn (Z.to_nat n) r, skipn (Z.to_nat n) r).

(** Big-endian value of a byte string ([binary.BigEndian.Uint16/32/64]). *)
Definition be_uint (bs : list byte) : Z :=
  fold_left (fun acc b => acc * 256 + byte_to_Z b) bs 0.

(** The [n] big-endian bytes of [v], two's complement for a negative [v]
    ([binary.BigEndian.PutUint16/32/64]). *)
Fixpoint be_bytes (n : nat) (v : Z) : list byte :=
  match n with
  | O => []
  | S n' => Z_to_byte (Z.shiftr v (8 * Z.of_nat n')) :: be_bytes n' v
  end.

(** The slice [buf[off : off+len]]. *)
Definition sub (buf : list byte) (off len : nat) : list byte :=
  firstn len (skipn off buf).

(** ** Data model *)

Definition FourByteString : Type := (byte * byte * byte * byte)%type.

Definition FourByteString_eqb (a b : FourByteString) : bool :=
  let '(a0, a1, a2, a3) := a in
  let '(b0, b1, b2, b3) := b in
  Byte.eqb a0 b0 && Byte.eqb a1 b1 && Byte.eqb a2 b2 && Byte.eqb a3 b3.

Definition FourByteString_set (t : FourByteString) (i : nat) (v : byte)
  : FourByteString :=
  let '(t0, t1, t2, t3) := t in
  match i with
  | 0%nat => (v, t1, t2, t3)
  | 1%nat => (t0, v, t2, t3)
  | 2%nat => (t0, t1, v, t3)
  | 3%nat => (t0, t1, t2, v)
  | _ => t
  end.

Fixpoint stringToChunkType_loop (i : nat) (str : list byte)
  (result : FourByteString) : FourByteString :=
  match str with
  | [] => result
  | v :: str' => stringToChunkType_loop (S i) str' (FourByteString_set result i v)
  end.

(** Only ever applied to the four-letter literals below. *)
Definition stringToChunkType (str : list byte) : FourByteString :=
  stringToChunkType_loop 0 str (x00, x00, x00, x00).

(** "desc", "chan", "info", "data", "pakt", "midi" and the magic "caff". *)
Definition ChunkTypeAudioDescription := stringToChunkType [x64; x65; x73; x63].
Definition ChunkTypeChannelLayout := stringToChunkType [x63; x68; x61; x6e].
Definition ChunkTypeInformation := stringToChunkType [x69; x6e; x66; x6f].
Definition ChunkTypeAudioData := stringToChunkType [x64; x61; x74; x61].
Definition ChunkTypePacketTable := stringToChunkType [x70; x61; x6b; x74].
Definition ChunkTypeMidi := stringToChunkType [x6d; x69; x64; x69].
Definition caff := stringToChunkType [x63; x61; x66; x66].

Definition FourByteString_bytes (t : FourByteString) : list byte :=
  let '(t0, t1, t2, t3) := t in [t0; t1; t2; t3].

Definition FourByteString_of (bs : list byte) : FourByteString :=
  (nth 0 bs x00, nth 1 bs x00, nth 2 bs x00, nth 3 bs x00).

Record FileHeader : Type := {
  FileType : FourByteString;
  FileVersion : Z;   (* int16 *)
  FileFlags : Z      (* int16 *)
}.

Record ChunkHeader : Type := {
  ChunkType : FourByteString;
  ChunkSize : Z      (* int64 *)
}.

Record Data : Type := {
  EditCount : Z;     (* uint32 *)
  Data_Data : list byte
}.

Record AudioFormat : Type := {
  SampleRate : Z;    (* float64, as its bit pattern *)
  FormatID : FourByteString;
  FormatFlags : Z;
  BytesPerPacket : Z;
  FramesPerPacket : Z;
  ChannelsPerPacket : Z;
  BitsPerChannel : Z
}.

Record PacketTableHeader : Type := {
  NumberPackets : Z;       (* int64 *)
  NumberValidFrames : Z;   (* int64 *)
  PrimingFramess : Z;      (* int32 *)
  RemainderFrames : Z      (* int32 *)
}.

Record PacketTable : Type := {
  PacketTable_Header : PacketTableHeader;
  Entry : list Z           (* []uint64 *)
}.

Record ChannelDescription : Type := {
  ChannelLabel : Z;
  ChannelFlags : Z;
  Coordinates : Z * Z * Z  (* [3]float32, as bit patterns *)
}.

Record ChannelLayout : Type := {
  ChannelLayoutTag : Z;
  ChannelBitmap : Z;
  NumberChannelDescriptions : Z;
  Channels : list ChannelDescription
}.

Record Information : Type := {
  Key : list byte;
  Value : list byte
}.

Record CAFStringsChunk : Type := {
  NumEntries : Z;
  Strings : list Information
}.

Record UnknownContents : Type := {
  UnknownContents_Data : list byte
}.

(** The dynamic types a [Chunk]'s [Contents interface{}] takes in this
    package.  [PP..] are the pointers to pointers that [Chunk.Encode]
    stores back into the chunk it was called on. *)
Inductive contents : Type :=
| Nil
| PAudioFormat (cc : AudioFormat)
| PChannelLayout (cc : ChannelLayout)
| PCAFStringsChunk (cc : CAFStringsChunk)
| PData (cc : Data)
| PPacketTable (cc : PacketTable)
| VMidi (cc : list byte)
| PUnknownContents (cc : UnknownContents)
| PPData (cc : Data)
| PPPacketTable (cc : PacketTable).

Record Chunk : Type := {
  Header : ChunkHeader;
  Contents : contents
}.

Record File : Type := {
  File_FileHeader : FileHeader;
  Chunks : list Chunk
}.

(** The zero values [File{}], [PacketTable{}] and so on. *)
Definition zero_FileHeader : FileHeader :=
  {| FileType := (x00, x00, x00, x00); FileVersion := 0; FileFlags := 0 |}.
Definition zero_File : File :=
  {| File_FileHeader := zero_FileHeader; Chunks := [] |}.
Definition zero_PacketTable : PacketTable :=
  {| PacketTable_Header :=
       {| NumberPackets := 0; NumberValidFrames := 0;
          PrimingFramess := 0; RemainderFrames := 0 |};
     Entry := [] |}.
Definition zero_ChannelLayout : ChannelLayout :=
  {| ChannelLayoutTag := 0; ChannelBitmap := 0;
     NumberChannelDescriptions := 0; Channels := [] |}.
Definition zero_CAFStringsChunk : CAFStringsChunk :=
  {| NumEntries := 0; Strings := [] |}.

(** ** [binary.Read] and [binary.Write] on the fixed-layout structs

    [binary.Read] of a fixed-size value first fills a buffer of the value's
    size with [io.ReadFull] and then takes the fields out of the buffer, so
    a struct is read whole or not at all. *)

Definition parse_FileHeader (buf : list byte) : FileHeader :=
  {| FileType := FourByteString_of (sub buf 0 4);
     FileVersion := signed 16 (be_uint (sub buf 4 2));
     FileFlags := signed 16 (be_uint (sub buf 6 2)) |}.

Definition bytes_FileHeader (h : FileHeader) : list byte :=
  FourByteString_bytes (FileType h)
    ++ be_bytes 2 (FileVersion h) ++ be_bytes 2 (FileFlags h).

Definition parse_ChunkHeader (buf : list byte) : ChunkHeader :=
  {| ChunkType := FourByteString_of (sub buf 0 4);
     ChunkSize := signed 64 (be_uint (sub buf 4 8)) |}.

Definition bytes_ChunkHeader (h : ChunkHeader) : list byte :=
  FourByteString_bytes (ChunkType h) ++ be_bytes 8 (ChunkSize h).

Definition parse_AudioFormat (buf : list byte) : AudioFormat :=
  {| SampleRate := be_uint (sub buf 0 8);
     FormatID := FourByteString_of (sub buf 8 4);
     FormatFlags := be_uint (sub buf 12 4);
     BytesPerPacket := be_uint (sub buf 16 4);
     FramesPerPacket := be_uint (sub buf 20 4);
     ChannelsPerPacket := be_uint (sub buf 24 4);
     BitsPerChannel := be_uint (sub buf 28 4) |}.

Definition bytes_AudioFormat (c : AudioFormat) : list byte :=
  be_bytes 8 (SampleRate c)
    ++ FourByteString_bytes (FormatID c)
    ++ be_bytes 4 (FormatFlags c)
    ++ be_bytes 4 (BytesPerPacket c)
    ++ be_bytes 4 (FramesPerPacket c)
    ++ be_bytes 4 (ChannelsPerPacket c)
    ++ be_bytes 4 (BitsPerChannel c).

Definition parse_PacketTableHeader (buf : list byte) : PacketTableHeader :=
  {| NumberPackets := signed 64 (be_uint (sub buf 0 8));
     NumberValidFrames := signed 64 (be_uint (sub buf 8 8));
     PrimingFramess := signed 32 (be_uint (sub buf 16 4));
     RemainderFrames := signed 32 (be_uint (sub buf 20 4)) |}.

Definition bytes_PacketTableHeader (h : PacketTableHeader) : list byte :=
  be_bytes 8 (NumberPackets h)
    ++ be_bytes 8 (NumberValidFrames h)
    ++ be_bytes 4 (PrimingFramess h)
    ++ be_bytes 4 (RemainderFrames h).

Definition parse_ChannelDescription (buf : list byte) : ChannelDescription :=
  {| ChannelLabel := be_uint (sub buf 0 4);
     ChannelFlags := be_uint (sub buf 4 4);
     Coordinates := (be_uint (sub buf 8 4),
                     be_uint (sub buf 12 4),
                     be_uint (sub buf 16 4)) |}.

Definition bytes_ChannelDescription (d : ChannelDescription) : list byte :=
  let '(x, y, z) := Coordinates d in
  be_bytes 4 (ChannelLabel d) ++ be_bytes 4 (ChannelFlags d)
    ++ be_bytes 4 x ++ be_bytes 4 y ++ be_bytes 4 z.

Definition read_uint32 (r : stream) : result (Z * stream) :=
  '(buf, r) <- ReadFull 4 r ;; Ok (be_uint buf, r).

(** ** Counted loops

    The decoders of the self-delimiting payloads share one loop shape,
    [for i := 0; i < n; i++ { v, err := read(r); if err != nil { return err };
    acc = append(acc, v) }], and their encoders the shape
    [for i := 0; i < n; i++ { if err := write(w, items[i]); err != nil
    { return err } }], in which [items[i]] panics past the end of the slice.
    Every round of the first reads at least one byte and every round of the
    second needs one more element, which bounds the rounds by [fuel]. *)

Fixpoint decode_count {A : Type} (read : stream -> result (A * stream))
  (fuel : nat) (i n : Z) (acc : list A) (r : stream)
  : result (list A * stream) :=
  if i <? n then
    match fuel with
    | O => OutOfFuel
    | S fuel' =>
        '(v, r) <- read r ;;
        decode_count read fuel' (i + 1) n (acc ++ [v]) r
    end
  else Ok (acc, r).

Fixpoint encode_count {A : Type} (write : A -> result (list byte))
  (fuel : nat) (i n : Z) (items : list A) : result (list byte) :=
  if i <? n then
    match fuel with
    | O => OutOfFuel
    | S fuel' =>
        match nth_error items (Z.to_nat i) with
        | None => Panic
        | Some v =>
            bs <- write v ;;
            out <- encode_count write fuel' (i + 1) n items ;;
            Ok (bs ++ out)
        end
    end
  else Ok [].

(** ** Packet table *)

Definition PacketTable_decode (c : PacketTable) (r : stream)
  : result (PacketTable * stream) :=
  '(buf, r) <- ReadFull 24 r ;;
  let header := parse_PacketTableHeader buf in
  '(entry, r) <- decode_count decodeInt (S (length r)) 0
                   (NumberPackets header) (Entry c) r ;;
  Ok ({| PacketTable_Header := header; Entry := entry |}, r).

Definition PacketTable_encode (c : PacketTable) : result (list byte) :=
  out <- encode_count encodeInt (S (length (Entry c))) 0
           (NumberPackets (PacketTable_Header c)) (Entry c) ;;
  Ok (bytes_PacketTableHeader (PacketTable_Header c) ++ out).

(** ** Information strings *)

(** The byte just read is appended before it is compared with zero. *)
Fixpoint readString_loop (bs : list byte) (r : stream)
  : result (list byte * stream) :=
  match r with
  | [] => Err EOF
  | b :: r' =>
      let bs := bs ++ [b] in
      if Byte.eqb b x00 then Ok (bs, r') else readString_loop bs r'
  end.

Definition readString (r : stream) : result (list byte * stream) :=
  readString_loop [] r.

Definition writeString (s : list byte) : result (list byte) :=
  let byteString := s in
  Ok byteString.

Definition Information_decode (r : stream) : result (Information * stream) :=
  '(key, r) <- readString r ;;
  '(value, r) <- readString r ;;
  Ok ({| Key := key; Value := value |}, r).

Definition Information_encode (c : Information) : result (list byte) :=
  k <- writeString (Key c) ;;
  v <- writeString (Value c) ;;
  Ok (k ++ v).

Definition CAFStringsChunk_decode (c : CAFStringsChunk) (r : stream)
  : result (CAFStringsChunk * stream) :=
  '(numEntries, r) <- read_uint32 r ;;
  '(strings, r) <- decode_count Information_decode (S (length r)) 0
                     numEntries (Strings c) r ;;
  Ok ({| NumEntries := numEntries; Strings := strings |}, r).

Definition CAFStringsChunk_encode (c : CAFStringsChunk) : result (list byte) :=
  out <- encode_count Information_encode (S (length (Strings c))) 0
           (NumEntries c) (Strings c) ;;
  Ok (be_bytes 4 (NumEntries c) ++ out).

(** ** Audio format, channel layout, audio data *)

Definition AudioFormat_decode (r : stream) : result (AudioFormat * stream) :=
  '(buf, r) <- ReadFull 32 r ;; Ok (parse_AudioFormat buf, r).

Definition AudioFormat_encode (c : AudioFormat) : result (list byte) :=
  Ok (bytes_AudioFormat c).

Definition read_ChannelDescription (r : stream)
  : result (ChannelDescription * stream) :=
  '(buf, r) <- ReadFull 20 r ;; Ok (parse_ChannelDescription buf, r).

Definition write_ChannelDescription (d : ChannelDescription)
  : result (list byte) :=
  Ok (bytes_ChannelDescription d).

Definition ChannelLayout_decode (c : ChannelLayout) (r : stream)
  : result (ChannelLayout * stream) :=
  '(tag, r) <- read_uint32 r ;;
  '(bitmap, r) <- read_uint32 r ;;
  '(number, r) <- read_uint32 r ;;
  '(channels, r) <- decode_count read_ChannelDescription (S (length r)) 0
                      number (Channels c) r ;;
  Ok ({| ChannelLayoutTag := tag; ChannelBitmap := bitmap;
         NumberChannelDescriptions := number; Channels := channels |}, r).

Definition ChannelLayout_encode (c : ChannelLayout) : result (list byte) :=
  out <- encode_count write_ChannelDescription (S (length (Channels c))) 0
           (NumberChannelDescriptions c) (Channels c) ;;
  Ok (be_bytes 4 (ChannelLayoutTag c) ++ be_bytes 4 (ChannelBitmap c)
        ++ be_bytes 4 (NumberChannelDescriptions c) ++ out).

Definition Data_decode (r : stream) (h : ChunkHeader) : result (Data * stream) :=
  '(editCount, r) <- read_uint32 r ;;
  if ChunkSize h =? -1 then
    (* read until end *)
    Ok ({| EditCount := editCount; Data_Data := r |}, [])
  else
    let dataLength := int64 (ChunkSize h - 4) (* for edit count *) in
    let '(data, r) := LimitReader_ReadAll r dataLength in
    Ok ({| EditCount := editCount; Data_Data := data |}, r).

Definition Data_encode (c : Data) : result (list byte) :=
  Ok (be_bytes 4 (EditCount c) ++ Data_Data c).

(** ** Chunks *)

(** [make([]byte, n)] followed by [binary.Read] into the slice. *)
Definition read_blob (n : Z) (r : stream) : result (list byte * stream) :=
  if n <? 0 then Panic else ReadFull n r.

(** The [switch] of [Chunk.decode], entered with the header just read. *)
Definition Chunk_decode_switch (header : ChunkHeader) (r : stream)
  : result (Chunk * stream) :=
  let ty := ChunkType header in
  if FourByteString_eqb ty ChunkTypeAudioDescription then
    '(cc, r) <- AudioFormat_decode r ;;
    Ok ({| Header := header; Contents := PAudioFormat cc |}, r)
  else if FourByteString_eqb ty ChunkTypeChannelLayout then
    '(cc, r) <- ChannelLayout_decode zero_ChannelLayout r ;;
    Ok ({| Header := header; Contents := PChannelLayout cc |}, r)
  else if FourByteString_eqb ty ChunkTypeInformation then
    '(cc, r) <- CAFStringsChunk_decode zero_CAFStringsChunk r ;;
    Ok ({| Header := header; Contents := PCAFStringsChunk cc |}, r)
  else if FourByteString_eqb ty ChunkTypeAudioData then
    '(cc, r) <- Data_decode r header ;;
    Ok ({| Header := header; Contents := PData cc |}, r)
  else if FourByteString_eqb ty ChunkTypePacketTable then
    '(cc, r) <- PacketTable_decode zero_PacketTable r ;;
    Ok ({| Header := header; Contents := PPacketTable cc |}, r)
  else if FourByteString_eqb ty ChunkTypeMidi then
    '(ba, r) <- read_blob (ChunkSize header) r ;;
    Ok ({| Header := header; Contents := VMidi ba |}, r)
  else
    '(ba, r) <- read_blob (ChunkSize header) r ;;
    Ok ({| Header := header;
           Contents := PUnknownContents {| UnknownContents_Data := ba |} |}, r).

Definition Chunk_decode (r : stream) : result (Chunk * stream) :=
  '(buf, r) <- ReadFull 12 r ;;
  Chunk_decode_switch (parse_ChunkHeader buf) r.

(** [Chunk.Encode]: the bytes written and the chunk as the call leaves it.
    A type assertion on contents of another dynamic type panics. *)
Definition Chunk_Encode (c : Chunk) : result (list byte * Chunk) :=
  let hd := bytes_ChunkHeader (Header c) in
  let ty := ChunkType (Header c) in
  if FourByteString_eqb ty ChunkTypeAudioDescription then
    match Contents c with
    | PAudioFormat cc => out <- AudioFormat_encode cc ;; Ok (hd ++ out, c)
    | _ => Panic
    end
  else if FourByteString_eqb ty ChunkTypeChannelLayout then
    match Contents c with
    | PChannelLayout cc => out <- ChannelLayout_encode cc ;; Ok (hd ++ out, c)
    | _ => Panic
    end
  else if FourByteString_eqb ty ChunkTypeInformation then
    match Contents c with
    | PCAFStringsChunk cc => out <- CAFStringsChunk_encode cc ;; Ok (hd ++ out, c)
    | _ => Panic
    end
  else if FourByteString_eqb ty ChunkTypeAudioData then
    match Contents c with
    | PData cc =>
        out <- Data_encode cc ;;
        Ok (hd ++ out, {| Header := Header c; Contents := PPData cc |})
    | _ => Panic
    end
  else if FourByteString_eqb ty ChunkTypePacketTable then
    match Contents c with
    | PPacketTable cc =>
        out <- PacketTable_encode cc ;;
        Ok (hd ++ out, {| Header := Header c; Contents := PPPacketTable cc |})
    | _ => Panic
    end
  else if FourByteString_eqb ty ChunkTypeMidi then
    match Contents c with
    | VMidi midi => Ok (hd ++ midi, c)
    | _ => Panic
    end
  else
    match Contents c with
    | PUnknownContents u => Ok (hd ++ UnknownContents_Data u, c)
    | _ => Panic
    end.

(** ** Files *)

Definition FileHeader_Decode (r : stream) : result (FileHeader * stream) :=
  '(buf, r) <- ReadFull 8 r ;;
  let h := parse_FileHeader buf in
  if negb (FourByteString_eqb (FileType h) caff) then Err ErrInvalidCaffHeader
  else Ok (h, r).

Definition FileHeader_Encode (h : FileHeader) : result (list byte) :=
  Ok (bytes_FileHeader h).

(** The chunk loop of [File.Decode]: [io.EOF] from [Chunk.decode] ends the
    loop, whatever call inside [Chunk.decode] it came from. *)
Fixpoint File_Decode_loop (fuel : nat) (chunks : list Chunk) (r : stream)
  : result (list Chunk) :=
  match fuel with
  | O => OutOfFuel
  | S fuel' =>
      match Chunk_decode r with
      | Err EOF => Ok chunks
      | Err e => Err e
      | Panic => Panic
      | OutOfFuel => OutOfFuel
      | Ok (c, r) => File_Decode_loop fuel' (chunks ++ [c]) r
      end
  end.

(** A decoded chunk takes at least its 12-byte header from the reader, so
    the length of the reader bounds the number of rounds. *)
Definition File_Decode (cf : File) (r : stream) : result File :=
  '(fileHeader, r) <- FileHeader_Decode r ;;
  chunks <- File_Decode_loop (S (length r)) (Chunks cf) r ;;
  Ok {| File_FileHeader := fileHeader; Chunks := chunks |}.

(** The loop variable of [File.Encode] is a copy of the chunk, so what
    [Chunk.Encode] stores back is dropped. *)
Fixpoint File_Encode_chunks (chunks : list Chunk) : result (list byte) :=
  match chunks with
  | [] => Ok []
  | c :: chunks' =>
      '(out, _) <- Chunk_Encode c ;;
      outs <- File_Encode_chunks chunks' ;;
      Ok (out ++ outs)
  end.

Definition File_Encode (cf : File) : result (list byte) :=
  hd <- FileHeader_Encode (File_FileHeader cf) ;;
  outs <- File_Encode_chunks (Chunks cf) ;;
  Ok (hd ++ outs).

(** ** Well-formed CAF byte sequences

    The layout of a CAF file as the format description gives it: the file
    header with the magic tag, then chunks, each a 12-byte header whose
    size field counts the payload bytes that follow, the payload laid out
    as its tag prescribes.  Only an audio-data chunk may carry the size
    [-1], and then its payload runs to the end of the file. *)


(** A key or value on disk: the bytes of the string, none of them zero,
    and the terminator. *)
Definition terminated (s : list byte) : Prop :=
  exists body, s = body ++ [x00] /\ ~ In x00 body.


(** The bit pattern of a [float32] signalling NaN: exponent all ones,
    fraction not zero, quiet bit clear. *)
Definition float32_signalling (u : Z) : bool :=
  (Z.land (Z.shiftr u 23) 255 =? 255)
  && negb (Z.land u (2 ^ 23 - 1) =? 0)
  && negb (Z.testbit u 22).







(** ** Auxiliary notions for the proofs *)

(** Little-endian value of a list of 7-bit groups. *)
Fixpoint value_le (gs : list byte) : Z :=
  match gs with
  | [] => 0
  | g :: gs' => byte_to_Z g + 128 * value_le gs'
  end.

Definition is_group (g : byte) : Prop := byte_to_Z g < 128.

(** The low seven bits of a byte, as a byte. *)
Definition low7 (b : byte) : byte := Z_to_byte (Z.land (byte_to_Z b) 127).

(** ** Sample inputs *)


(** ** Notions used in the statements below *)

(** [channel_enc d bs], [info_enc c bs], [packet_enc e bs]: the bytes [bs]
    are a well-formed entry and [d], [c], [e] is what it stands for. *)
Definition channel_enc (d : ChannelDescription) (bs : list byte) : Prop :=
  length bs = 20%nat /\ d = parse_ChannelDescription bs.

Definition info_enc (c : Information) (bs : list byte) : Prop :=
  bs = Key c ++ Value c /\ terminated (Key c) /\ terminated (Value c).

Definition packet_enc (e : Z) (bs : list byte) : Prop :=
  0 <= e < 2 ^ 56 /\ encodeInt e = Ok bs.









(** A group with the continuation flag set. *)
Definition flagged (g : byte) : byte := Z_to_byte (Z.lor (byte_to_Z g) 128).

(** [eof_error m]: if [m] is an error, it is [io.EOF] or
    [io.ErrUnexpectedEOF]. *)
Definition eof_error {A : Type} (m : result A) : Prop :=
  match m with
  | Err ErrInvalidCaffHeader => False
  | _ => True
  end.







(** No coordinate of the channel is a signalling NaN. *)
Definition quiet_coordinates (d : ChannelDescription) : Prop :=
  let '(x, y, z) := Coordinates d in
  float32_signalling x = false
  /\ float32_signalling y = false
  /\ float32_signalling z = false.

(** The dynamic type [Chunk.Encode] asserts for the contents of a chunk
    with the tag [ty]. *)
Definition asserted_type (ty : FourByteString) (c : contents) : bool :=
  if FourByteString_eqb ty ChunkTypeAudioDescription then
    match c with PAudioFormat _ => true | _ => false end
  else if FourByteString_eqb ty ChunkTypeChannelLayout then
    match c with PChannelLayout _ => true | _ => false end
  else if FourByteString_eqb ty ChunkTypeInformation then
    match c with PCAFStringsChunk _ => true | _ => false end
  else if FourByteString_eqb ty ChunkTypeAudioData then
    match c with PData _ => true | _ => false end
  else if FourByteString_eqb ty ChunkTypePacketTable then
    match c with PPacketTable _ => true | _ => false end
  else if FourByteString_eqb ty ChunkTypeMidi then
    match c with VMidi _ => true | _ => false end
  else
    match c with PUnknownContents _ => true | _ => false end.

(** The count field of the contents does not exceed the number of entries
    the contents hold. *)
Definition counts_fit (c : contents) : bool :=
  match c with
  | PChannelLayout cc =>
      NumberChannelDescriptions cc <=? Z.of_nat (length (Channels cc))
  | PCAFStringsChunk cc => NumEntries cc <=? Z.of_nat (length (Strings cc))
  | PPacketTable cc =>
      NumberPackets (PacketTable_Header cc) <=? Z.of_nat (length (Entry cc))
  | _ => true
  end.

(** The chunks whose encoding gives back the bytes they were decoded
    from, whatever those were: every chunk but a packet table, whose sizes
    may have been written in more bytes than [encodeInt] uses, and a
    channel layout with a signalling NaN among its coordinates. *)
Definition kept_verbatim (c : Chunk) : Prop :=
  match Contents c with
  | PPacketTable _ => False
  | PChannelLayout cc => Forall quiet_coordinates (Channels cc)
  | _ => True
  end.

(** [reenc write R a bs]: the entry [a], decoded from the bytes [bs], is
    written in no more bytes, and in the same bytes if [R a]. *)
Definition reenc {A : Type} (write : A -> result (list byte))
  (R : A -> Prop) (a : A) (bs : list byte) : Prop :=
  exists out,
    write a = Ok out /\ (length out <= length bs)%nat /\ (R a -> out = bs).










(** * Properties *)

(** *** Bytes and big-endian integers *)

Lemma byte_to_Z_range (b : byte) : 0 <= byte_to_Z b < 256.
Proof.
  unfold byte_to_Z. pose proof (Byte.to_N_bounded b). lia.
Qed.

Lemma Z_to_byte_to_Z (b : byte) : Z_to_byte (byte_to_Z b) = b.
Proof.
  unfold Z_to_byte. pose proof (byte_to_Z_range b) as Hr.
  rewrite Z.mod_small by exact Hr.
  unfold byte_to_Z. rewrite N2Z.id, Byte.of_to_N. reflexivity.
Qed.

Lemma byte_to_Z_to_byte (z : Z) : byte_to_Z (Z_to_byte z) = z mod 256.
Proof.
  unfold Z_to_byte, byte_to_Z.
  pose proof (Z.mod_pos_bound z 256 ltac:(lia)) as Hr.
  destruct (Byte.of_N (Z.to_N (z mod 256))) as [b|] eqn:E.
  - apply Byte.to_of_N in E. rewrite E. lia.
  - apply Byte.of_N_None_iff in E. lia.
Qed.

Lemma byte_eqb_eq (a b : byte) : Byte.eqb a b = true <-> a = b.
Proof.
  split.
  - apply Byte.byte_dec_bl.
  - intros ->. apply Byte.byte_dec_lb. reflexivity.
Qed.

Lemma Z_to_byte_add_mul (a k : Z) : Z_to_byte (a + k * 256) = Z_to_byte a.
Proof. unfold Z_to_byte. rewrite Z.mod_add by lia. reflexivity. Qed.

Lemma be_bytes_add_mul (n : nat) :
  forall x k, be_bytes n (x + k * 2 ^ (8 * Z.of_nat n)) = be_bytes n x.
Proof.
  induction n as [|n IH]; intros x k.
  - reflexivity.
  - cbn [be_bytes]. f_equal.
    + rewrite !Z.shiftr_div_pow2 by lia.
      replace (2 ^ (8 * Z.of_nat (S n))) with (256 * 2 ^ (8 * Z.of_nat n)).
      2:{ replace (8 * Z.of_nat (S n)) with (8 + 8 * Z.of_nat n) by lia.
          rewrite Z.pow_add_r by lia. reflexivity. }
      rewrite Z.mul_assoc, Z.div_add by (apply Z.pow_nonzero; lia).
      apply Z_to_byte_add_mul.
    + replace (2 ^ (8 * Z.of_nat (S n))) with (256 * 2 ^ (8 * Z.of_nat n)).
      2:{ replace (8 * Z.of_nat (S n)) with (8 + 8 * Z.of_nat n) by lia.
          rewrite Z.pow_add_r by lia. reflexivity. }
      rewrite Z.mul_assoc. apply IH.
Qed.

Lemma be_uint_acc (bs : list byte) :
  forall acc,
    fold_left (fun a b => a * 256 + byte_to_Z b) bs acc
    = acc * 2 ^ (8 * Z.of_nat (length bs)) + be_uint bs.
Proof.
  unfold be_uint. induction bs as [|b bs IH]; intros acc.
  - cbn. lia.
  - cbn [fold_left length]. rewrite IH. rewrite (IH (0 * 256 + byte_to_Z b)).
    replace (8 * Z.of_nat (S (length bs))) with (8 + 8 * Z.of_nat (length bs)) by lia.
    rewrite Z.pow_add_r by lia. change (2 ^ 8) with 256. ring.
Qed.

Lemma be_uint_cons (b : byte) (bs : list byte) :
  be_uint (b :: bs) = byte_to_Z b * 2 ^ (8 * Z.of_nat (length bs)) + be_uint bs.
Proof.
  unfold be_uint at 1. cbn [fold_left]. rewrite be_uint_acc. lia.
Qed.

Lemma be_uint_range (bs : list byte) :
  0 <= be_uint bs < 2 ^ (8 * Z.of_nat (length bs)).
Proof.
  induction bs as [|b bs IH].
  - cbn. lia.
  - rewrite be_uint_cons. pose proof (byte_to_Z_range b) as Hb.
    replace (8 * Z.of_nat (length (b :: bs))) with (8 + 8 * Z.of_nat (length bs))
      by (cbn [length]; lia).
    rewrite Z.pow_add_r by lia. change (2 ^ 8) with 256.
    nia.
Qed.

(** Writing back the big-endian value of a byte string gives the string. *)
Lemma be_bytes_be_uint (bs : list byte) :
  be_bytes (length bs) (be_uint bs) = bs.
Proof.
  induction bs as [|b bs IH].
  - reflexivity.
  - cbn [length be_bytes]. rewrite be_uint_cons.
    pose proof (be_uint_range bs) as Hr.
    f_equal.
    + rewrite Z.shiftr_div_pow2 by lia.
      rewrite Z.add_comm, Z.div_add by (apply Z.pow_nonzero; lia).
      rewrite Z.div_small by lia. cbn. apply Z_to_byte_to_Z.
    + rewrite Z.add_comm, be_bytes_add_mul. exact IH.
Qed.

Lemma be_bytes_signed (n : nat) (u : Z) :
  be_bytes n (signed (8 * Z.of_nat n) u) = be_bytes n u.
Proof.
  unfold signed. destruct (u <? 2 ^ (8 * Z.of_nat n - 1)).
  - reflexivity.
  - replace (u - 2 ^ (8 * Z.of_nat n)) with (u + (-1) * 2 ^ (8 * Z.of_nat n)) by lia.
    apply be_bytes_add_mul.
Qed.

Lemma be_bytes_length (n : nat) (v : Z) : length (be_bytes n v) = n.
Proof. induction n; cbn; congruence. Qed.

Lemma be_uint_be_bytes (n : nat) :
  forall v, be_uint (be_bytes n v) = v mod 2 ^ (8 * Z.of_nat n).
Proof.
  induction n as [|n IH]; intros v.
  - cbn. rewrite Z.mod_1_r. reflexivity.
  - cbn [be_bytes]. rewrite be_uint_cons, be_bytes_length, IH, byte_to_Z_to_byte.
    rewrite Z.shiftr_div_pow2 by lia.
    replace (8 * Z.of_nat (S n)) with (8 * Z.of_nat n + 8) by lia.
    rewrite (Z.pow_add_r 2 (8 * Z.of_nat n) 8) by lia. change (2 ^ 8) with 256.
    set (p := 2 ^ (8 * Z.of_nat n)).
    assert (0 < p) by (apply Z.pow_pos_nonneg; lia).
    rewrite (Z.rem_mul_r v p 256) by lia. lia.
Qed.

(** *** Bit-level facts about 7-bit groups *)

Lemma land_127 (x : Z) : Z.land x 127 = x mod 128.
Proof. change 127 with (Z.ones 7). rewrite Z.land_ones by lia. reflexivity. Qed.

Lemma shiftl_7_lor (a g : Z) :
  0 <= g < 128 -> Z.lor (Z.shiftl a 7) g = a * 128 + g.
Proof.
  intros Hg.
  assert (Hz : Z.land (Z.shiftl a 7) g = 0).
  { apply Z.bits_inj'. intros n Hn. rewrite Z.land_spec, Z.bits_0.
    destruct (Z.ltb_spec n 7).
    - rewrite Z.shiftl_spec_low by lia. reflexivity.
    - replace (Z.testbit g n) with false; [apply andb_false_r|].
      symmetry. destruct (Z.eq_dec g 0) as [->|].
      + apply Z.bits_0.
      + apply Z.bits_above_log2; [lia|].
        apply Z.log2_lt_pow2; [lia|]. 
        apply Z.lt_le_trans with (2 ^ 7); [change (2 ^ 7) with 128; lia|].
        apply Z.pow_le_mono_r; lia. }
  pose proof (Z.add_lor_land (Z.shiftl a 7) g) as H.
  rewrite Hz in H. rewrite Z.shiftl_mul_pow2 in * by lia. change (2 ^ 7) with 128 in *. lia.
Qed.

Lemma land_128_small (g : Z) : 0 <= g < 128 -> Z.land g 128 = 0.
Proof.
  intros Hg. apply Z.bits_inj'. intros n Hn.
  rewrite Z.land_spec, Z.bits_0.
  destruct (Z.eq_dec n 7) as [->|Hne].
  - replace (Z.testbit g 7) with false; [reflexivity|].
    symmetry. destruct (Z.eq_dec g 0) as [->|]; [apply Z.bits_0|].
    apply Z.bits_above_log2; [lia|]. apply Z.log2_lt_pow2; [lia|]. change (2 ^ 7) with 128; lia.
  - change 128 with (2 ^ 7). rewrite Z.pow2_bits_eqb by lia.
    replace (7 =? n) with false by (symmetry; apply Z.eqb_neq; lia).
    apply andb_false_r.
Qed.

Lemma lor_128_small (g : Z) : 0 <= g < 128 -> Z.lor g 128 = g + 128.
Proof.
  intros Hg. pose proof (Z.add_lor_land g 128) as H.
  rewrite land_128_small in H by exact Hg. lia.
Qed.

Lemma land_128_set (g : Z) : 0 <= g < 128 -> Z.land (g + 128) 128 = 128.
Proof.
  intros Hg. rewrite <- lor_128_small by exact Hg.
  rewrite Z.land_lor_distr_l, land_128_small by exact Hg.
  rewrite Z.land_diag. reflexivity.
Qed.

(** *** The variable-length integer codec *)

Lemma value_le_nonneg (gs : list byte) : 0 <= value_le gs.
Proof.
  induction gs as [|g gs IH]; cbn [value_le]; [lia|].
  pose proof (byte_to_Z_range g). lia.
Qed.

Lemma value_le_firstn_S (gs : list byte) :
  forall i, (i < length gs)%nat ->
    value_le (firstn (S i) gs)
    = value_le (firstn i gs) + byte_to_Z (nth i gs x00) * 128 ^ Z.of_nat i.
Proof.
  induction gs as [|g gs IH]; intros i Hi; [cbn in Hi; lia|].
  destruct i as [|i].
  - cbn. lia.
  - cbn [length] in Hi. 
    change (firstn (S (S i)) (g :: gs)) with (g :: firstn (S i) gs).
    change (firstn (S i) (g :: gs)) with (g :: firstn i gs).
    cbn [value_le nth]. rewrite IH by lia.
    rewrite Nat2Z.inj_succ, Z.pow_succ_r by lia. ring.
Qed.

Lemma encodeInt_groups_spec (fuel : nat) :
  forall (n : nat) (cur : Z) (byts : list byte),
    (1 <= n <= fuel)%nat -> 0 <= cur < 128 ^ Z.of_nat n ->
    exists gs,
      encodeInt_groups fuel cur byts = Ok (byts ++ gs) /\
      (1 <= length gs <= n)%nat /\
      Forall is_group gs /\
      value_le gs = cur.
Proof.
  induction fuel as [|fuel IH]; intros n cur byts Hn Hcur; [lia|].
  cbn [encodeInt_groups].
  rewrite land_127, Z.shiftr_div_pow2 by lia. change (2 ^ 7) with 128.
  pose proof (Z.mod_pos_bound cur 128 ltac:(lia)) as Hm.
  assert (Hv : byte_to_Z (Z_to_byte (cur mod 128)) = cur mod 128).
  { rewrite byte_to_Z_to_byte. apply Z.mod_small. lia. }
  destruct (Z.eqb_spec (cur / 128) 0) as [Hz|Hnz].
  - exists [Z_to_byte (cur mod 128)]. repeat split.
    + cbn. lia.
    + cbn. lia.
    + constructor; [|constructor]. unfold is_group. lia.
    + cbn [value_le]. rewrite Hv.
      pose proof (Z.div_mod cur 128 ltac:(lia)). lia.
  - destruct n as [|[|n]]; [lia| |].
    + exfalso. apply Hnz. apply Z.div_small. cbn in Hcur. lia.
    + destruct (IH (S n) (cur / 128) (byts ++ [Z_to_byte (cur mod 128)]))
        as (gs & Hgs & Hlen & Hall & Hval).
      * lia.
      * split; [apply Z.div_pos; lia|].
        apply Z.div_lt_upper_bound; [lia|].
        rewrite (Nat2Z.inj_succ (S n)), Z.pow_succ_r in Hcur by lia. lia.
      * exists (Z_to_byte (cur mod 128) :: gs). repeat split.
        -- rewrite Hgs, <- app_assoc. reflexivity.
        -- cbn [length]. lia.
        -- cbn [length]. lia.
        -- constructor; [unfold is_group; lia|exact Hall].
        -- cbn [value_le]. rewrite Hv, Hval.
           pose proof (Z.div_mod cur 128 ltac:(lia)). lia.
Qed.

Ltac ok_value tac :=
  match goal with
  | |- Ok (?a, ?r) = Ok (?b, ?r) => replace b with a by tac; reflexivity
  end.

Lemma decodeInt_loop_emit (gs : list byte) (rest : stream) :
  Forall is_group gs ->
  forall (n : nat) (res k : Z),
    (1 <= n <= length gs)%nat ->
    0 <= k -> k + Z.of_nat n <= 8 -> 0 <= res ->
    res * 128 ^ Z.of_nat n + value_le (firstn n gs) < 2 ^ 64 ->
    decodeInt_loop res k (encodeInt_emit gs n ++ rest)
    = Ok (res * 128 ^ Z.of_nat n + value_le (firstn n gs), rest).
Proof.
  intros Hall. induction n as [|i IH]; intros res k Hn Hk Hkn Hres Hlt; [lia|].
  assert (Hg : 0 <= byte_to_Z (nth i gs x00) < 128).
  { split; [apply byte_to_Z_range|].
    rewrite Forall_forall in Hall. apply Hall. apply nth_In. lia. }
  rewrite value_le_firstn_S in * by lia.
  pose proof (value_le_nonneg (firstn i gs)) as Hv.
  assert (Hp : 0 < 128 ^ Z.of_nat i) by (apply Z.pow_pos_nonneg; lia).
  rewrite Nat2Z.inj_succ, Z.pow_succ_r in * by lia.
  assert (Hsh : uint64 (Z.shiftl res 7) = Z.shiftl res 7).
  { unfold uint64. rewrite Z.shiftl_mul_pow2 by lia. change (2 ^ 7) with 128.
    apply Z.mod_small. nia. }
  cbn [encodeInt_emit app decodeInt_loop]. rewrite Hsh.
  destruct (Z.ltb_spec 0 (Z.of_nat i)) as [Hi|Hi].
  - rewrite byte_to_Z_to_byte, lor_128_small by exact Hg.
    rewrite (Z.mod_small (_ + 128) 256) by lia.
    rewrite land_128_set by exact Hg.
    rewrite land_127.
    replace ((byte_to_Z (nth i gs x00) + 128) mod 128)
      with (byte_to_Z (nth i gs x00)).
    2:{ replace (byte_to_Z (nth i gs x00) + 128)
          with (byte_to_Z (nth i gs x00) + 1 * 128) by lia.
        rewrite Z.mod_add by lia. symmetry. apply Z.mod_small. lia. }
    rewrite shiftl_7_lor by lia.
    cbn [Z.eqb orb].
    destruct (Z.leb_spec 8 (k + 1)) as [Hc|Hc]; [lia|].
    rewrite IH by nia. ok_value ltac:(ring).
  - assert (i = 0%nat) by lia. subst i.
    rewrite land_128_small by exact Hg. cbn [Z.eqb orb encodeInt_emit app].
    rewrite land_127, (Z.mod_small _ 128) by lia.
    rewrite shiftl_7_lor by lia.
    cbn [firstn value_le Z.of_nat]. ok_value ltac:(ring).
Qed.

(** What [encodeInt] writes for a value below [2^56] is read back by
    [decodeInt], whatever follows it in the reader. *)
Lemma decodeInt_encodeInt (v : Z) (rest : stream) :
  0 <= v < 2 ^ 56 ->
  exists bs, encodeInt v = Ok bs /\ bs <> [] /\
             decodeInt (bs ++ rest) = Ok (v, rest).
Proof.
  intros Hv. unfold encodeInt, decodeInt.
  assert (Hu : uint64 v = v) by (unfold uint64; apply Z.mod_small; lia).
  rewrite Hu.
  destruct (encodeInt_groups_spec 10 8 v []) as (gs & Hgs & Hlen & Hall & Hval).
  - lia.
  - change (128 ^ Z.of_nat 8) with (2 ^ 56). exact Hv.
  - rewrite Hgs. cbn [app bind]. eexists. split; [reflexivity|].
    split; [destruct (length gs) eqn:E; [lia|discriminate]|].
    rewrite (decodeInt_loop_emit gs rest Hall) by
      (rewrite ?firstn_all, ?Hval; lia).
    rewrite firstn_all, Hval. reflexivity.
Qed.

(** C2.  Varint round trip: for every [v] in [0, 2^56), what [encodeInt]
    writes for [v] is read back as [v] by [decodeInt], which leaves what
    follows in the reader untouched; and for [v = 0] the encoding is the
    single byte zero. *)
Theorem varint_round_trip (v : Z) (rest : stream) :
  0 <= v < 2 ^ 56 ->
  exists bs,
    encodeInt v = Ok bs /\
    decodeInt (bs ++ rest) = Ok (v, rest) /\
    (v = 0 -> bs = [x00]).
Proof.
  intros Hv. destruct (decodeInt_encodeInt v rest Hv) as (bs & He & _ & Hd).
  exists bs. repeat split; try assumption.
  intros ->. cbv in He. congruence.
Qed.

Lemma accumulate_eq (res : Z) (b : byte) :
  accumulate res b = res * 128 + byte_to_Z b mod 128.
Proof.
  unfold accumulate. rewrite land_127.
  apply shiftl_7_lor. apply Z.mod_pos_bound. lia.
Qed.

Lemma fold_accumulate_bound (l : list byte) :
  forall (res : Z) (n : Z),
    0 <= n -> 0 <= res < 128 ^ n ->
    0 <= fold_left accumulate l res < 128 ^ (n + Z.of_nat (length l)).
Proof.
  induction l as [|b l IH]; intros res n Hn Hres.
  - cbn. rewrite Z.add_0_r. exact Hres.
  - cbn [fold_left length].
    replace (n + Z.of_nat (S (length l))) with ((n + 1) + Z.of_nat (length l)) by lia.
    apply IH; [lia|]. rewrite accumulate_eq.
    pose proof (Z.mod_pos_bound (byte_to_Z b) 128 ltac:(lia)).
    rewrite Z.pow_add_r by lia. change (128 ^ 1) with 128. nia.
Qed.

Lemma decodeInt_step (res k : Z) (byt : byte) (r : stream) :
  0 <= k < 8 -> 0 <= res < 128 ^ k ->
  decodeInt_loop res k (byt :: r)
  = if negb (continuation byt) || (8 <=? k + 1)
    then Ok (accumulate res byt, r)
    else decodeInt_loop (accumulate res byt) (k + 1) r.
Proof.
  intros Hk Hres. cbn [decodeInt_loop].
  assert (Hsh : uint64 (Z.shiftl res 7) = Z.shiftl res 7).
  { unfold uint64. rewrite Z.shiftl_mul_pow2 by lia. change (2 ^ 7) with 128.
    apply Z.mod_small.
    assert (128 ^ k <= 128 ^ 7) by (apply Z.pow_le_mono_r; lia).
    change (128 ^ 7) with (2 ^ 49) in *. lia. }
  rewrite Hsh. unfold continuation, accumulate. rewrite negb_involutive.
  reflexivity.
Qed.

Lemma decodeInt_loop_read (r : stream) :
  forall (res k v : Z) (rest : stream),
    0 <= k < 8 -> 0 <= res < 128 ^ k ->
    decodeInt_loop res k r = Ok (v, rest) ->
    exists (pre : list byte) (lst : byte),
      r = pre ++ lst :: rest /\
      Forall (fun b => continuation b = true) pre /\
      k + Z.of_nat (length pre) < 8 /\
      (continuation lst = false \/ k + Z.of_nat (length pre) = 7) /\
      v = fold_left accumulate (pre ++ [lst]) res.
Proof.
  induction r as [|byt r IH]; intros res k v rest Hk Hres H.
  - discriminate.
  - rewrite decodeInt_step in H by assumption.
    destruct (continuation byt) eqn:Hc; cbn [negb orb] in H.
    + destruct (Z.leb_spec 8 (k + 1)) as [Hl|Hl].
      * injection H as <- <-. exists [], byt. cbn. repeat split; auto; lia.
      * apply IH in H; [| lia |].
        2:{ pose proof (fold_accumulate_bound [byt] res k ltac:(lia) Hres) as Hb.
            exact Hb. }
        destruct H as (pre & lst & -> & Hall & Hlen & Hstop & ->).
        exists (byt :: pre), lst. cbn [length app fold_left].
        split; [reflexivity|]. split; [constructor; assumption|].
        split; [lia|]. split; [|reflexivity].
        destruct Hstop; [left; assumption|right; lia].
    + injection H as <- <-. exists [], byt. cbn. repeat split; auto; lia.
Qed.

Lemma decodeInt_loop_stop (pre : list byte) :
  forall (lst : byte) (rest : stream) (res k : Z),
    0 <= k -> 0 <= res < 128 ^ k ->
    Forall (fun b => continuation b = true) pre ->
    k + Z.of_nat (length pre) < 8 ->
    (continuation lst = false \/ k + Z.of_nat (length pre) = 7) ->
    decodeInt_loop res k (pre ++ lst :: rest)
    = Ok (fold_left accumulate (pre ++ [lst]) res, rest).
Proof.
  induction pre as [|b pre IH]; intros lst rest res k Hk Hres Hall Hlen Hstop.
  - cbn [app fold_left]. cbn [length] in *.
    rewrite decodeInt_step by lia.
    destruct Hstop as [Hc|Hc].
    + rewrite Hc. reflexivity.
    + destruct (Z.leb_spec 8 (k + 1)); [|lia].
      rewrite orb_true_r. reflexivity.
  - cbn [app fold_left]. cbn [length] in *.
    rewrite decodeInt_step by lia.
    inversion Hall as [|? ? Hb Hall']; subst.
    rewrite Hb. cbn [negb orb].
    destruct (Z.leb_spec 8 (k + 1)); [lia|].
    apply IH.
    + lia.
    + exact (fold_accumulate_bound [b] res k ltac:(lia) Hres).
    + assumption.
    + lia.
    + destruct Hstop; [left; assumption|right; lia].
Qed.

(** C3.  [decodeInt] returns [v] and leaves [rest] exactly when the reader
    starts with at most eight bytes of which every one but the last carries
    the continuation flag, the last either clears it or is the eighth, and
    [v] is the accumulation [res = (res << 7) | (byte & 0x7F)] over them;
    consequently every value it returns is below [2^56]. *)
Theorem decodeInt_stops_at_clear_flag_or_eight_bytes
  (r : stream) (v : Z) (rest : stream) :
  (decodeInt r = Ok (v, rest) <-> varint_read r v rest)
  /\ (decodeInt r = Ok (v, rest) -> 0 <= v < 2 ^ 56).
Proof.
  assert (Hfwd : decodeInt r = Ok (v, rest) -> varint_read r v rest).
  { intros H. apply decodeInt_loop_read in H; [|lia|cbn; lia].
    destruct H as (pre & lst & ? & ? & ? & Hstop & ?).
    exists pre, lst. repeat split; auto; try lia.
    destruct Hstop; [left; assumption|right; lia]. }
  split; [split; [exact Hfwd|]|].
  - intros (pre & lst & -> & Hall & Hlen & Hstop & ->).
    apply decodeInt_loop_stop.
    + lia.
    + cbn; lia.
    + assumption.
    + lia.
    + destruct Hstop; [left; assumption|right; lia].
  - intros H. apply Hfwd in H.
    destruct H as (pre & lst & _ & _ & Hlen & _ & ->).
    pose proof (fold_accumulate_bound (pre ++ [lst]) 0 0 ltac:(lia) ltac:(cbn; lia)) as Hb.
    rewrite length_app in Hb. cbn [length] in Hb.
    assert (128 ^ (0 + Z.of_nat (length pre + 1)) <= 128 ^ 8)
      by (apply Z.pow_le_mono_r; lia).
    change (128 ^ 8) with (2 ^ 56) in *. lia.
Qed.

Lemma decodeInt_stops_witness :
  decodeInt [x81; x00; x07] = Ok (128, [x07]) /\ 0 <= 128 < 2 ^ 56.
Proof.
  assert (H : decodeInt [x81; x00; x07] = Ok (128, [x07])) by reflexivity.
  split; [exact H|].
  exact (proj2 (decodeInt_stops_at_clear_flag_or_eight_bytes _ _ _) H).
Defined.

Lemma varint_round_trip_witness :
  exists bs,
    encodeInt 300 = Ok bs /\
    decodeInt (bs ++ [xff]) = Ok (300, [xff]) /\
    (300 = 0 -> bs = [x00]).
Proof.
  apply (varint_round_trip 300 [xff]). lia.
Defined.

(** *** [io.ReadFull] *)

Lemma ReadFull_app (n : Z) (buf rest : list byte) :
  Z.of_nat (length buf) = n ->
  ReadFull n (buf ++ rest) = Ok (buf, rest).
Proof.
  intros Hn. unfold ReadFull.
  destruct (Z.leb_spec n 0) as [Hz|Hz].
  - destruct buf; [reflexivity|cbn [length] in Hn; lia].
  - destruct buf as [|b buf]; [cbn in Hn; lia|].
    cbn [app].
    change (b :: buf ++ rest) with ((b :: buf) ++ rest).
    rewrite length_app.
    destruct (Z.ltb_spec (Z.of_nat (length (b :: buf) + length rest)) n); [lia|].
    replace (Z.to_nat n) with (length (b :: buf)) by lia.
    rewrite firstn_app, skipn_app, Nat.sub_diag, firstn_all, skipn_all.
    cbn [firstn skipn]. rewrite app_nil_r. reflexivity.
Qed.

Lemma ReadFull_Ok (n : Z) (r buf rest : list byte) :
  ReadFull n r = Ok (buf, rest) ->
  r = buf ++ rest /\ length buf = Z.to_nat n.
Proof.
  unfold ReadFull. destruct (Z.leb_spec n 0) as [Hz|Hz].
  - intros [= <- <-]. split; [reflexivity|]. cbn. lia.
  - destruct r as [|b r]; [discriminate|].
    destruct (Z.ltb_spec (Z.of_nat (length (b :: r))) n); [discriminate|].
    intros [= <- <-]. split.
    + symmetry. apply firstn_skipn.
    + apply firstn_length_le. lia.
Qed.

(** [ReadFull] answers a value, [io.EOF] or [io.ErrUnexpectedEOF]. *)
Lemma ReadFull_cases (n : Z) (r : list byte) :
  (exists buf rest, ReadFull n r = Ok (buf, rest))
  \/ ReadFull n r = Err EOF \/ ReadFull n r = Err ErrUnexpectedEOF.
Proof.
  unfold ReadFull. destruct (n <=? 0); [left; eauto|].
  destruct r; [right; left; reflexivity|].
  destruct (_ <? n); [right; right; reflexivity|left; eauto].
Qed.

(** *** The fixed-layout structs *)

Lemma be_bytes_be_uint_len (n : nat) (bs : list byte) :
  length bs = n -> be_bytes n (be_uint bs) = bs.
Proof. intros <-. apply be_bytes_be_uint. Qed.

Lemma be_bytes_signed16 (u : Z) : be_bytes 2 (signed 16 u) = be_bytes 2 u.
Proof. exact (be_bytes_signed 2 u). Qed.
Lemma be_bytes_signed32 (u : Z) : be_bytes 4 (signed 32 u) = be_bytes 4 u.
Proof. exact (be_bytes_signed 4 u). Qed.
Lemma be_bytes_signed64 (u : Z) : be_bytes 8 (signed 64 u) = be_bytes 8 u.
Proof. exact (be_bytes_signed 8 u). Qed.

Tactic Notation "explode" ident(buf) integer(n) :=
  do n (destruct buf as [|? buf]; [discriminate|]);
  destruct buf; [|discriminate].

Ltac struct_bytes :=
  cbn [sub firstn skipn FourByteString_of FourByteString_bytes nth
         FileType FileVersion FileFlags ChunkType ChunkSize
         SampleRate FormatID FormatFlags BytesPerPacket FramesPerPacket
         ChannelsPerPacket BitsPerChannel
         NumberPackets NumberValidFrames PrimingFramess RemainderFrames
         ChannelLabel ChannelFlags Coordinates];
  rewrite ?be_bytes_signed16, ?be_bytes_signed32, ?be_bytes_signed64;
  rewrite !be_bytes_be_uint_len by reflexivity;
  reflexivity.

Lemma bytes_parse_FileHeader (buf : list byte) :
  length buf = 8%nat -> bytes_FileHeader (parse_FileHeader buf) = buf.
Proof.
  intros H. explode buf 8. unfold bytes_FileHeader, parse_FileHeader.
  struct_bytes.
Qed.

Lemma bytes_parse_ChunkHeader (buf : list byte) :
  length buf = 12%nat -> bytes_ChunkHeader (parse_ChunkHeader buf) = buf.
Proof.
  intros H. explode buf 12. unfold bytes_ChunkHeader, parse_ChunkHeader.
  struct_bytes.
Qed.

Lemma bytes_parse_AudioFormat (buf : list byte) :
  length buf = 32%nat -> bytes_AudioFormat (parse_AudioFormat buf) = buf.
Proof.
  intros H. explode buf 32. unfold bytes_AudioFormat, parse_AudioFormat.
  struct_bytes.
Qed.

Lemma bytes_parse_PacketTableHeader (buf : list byte) :
  length buf = 24%nat ->
  bytes_PacketTableHeader (parse_PacketTableHeader buf) = buf.
Proof.
  intros H. explode buf 24.
  unfold bytes_PacketTableHeader, parse_PacketTableHeader.
  struct_bytes.
Qed.

Lemma bytes_parse_ChannelDescription (buf : list byte) :
  length buf = 20%nat ->
  bytes_ChannelDescription (parse_ChannelDescription buf) = buf.
Proof.
  intros H. explode buf 20.
  unfold bytes_ChannelDescription, parse_ChannelDescription.
  struct_bytes.
Qed.

(** *** Counted loops over well-formed input *)

Section CountedLoops.
Context {A : Type}.
Variable read : stream -> result (A * stream).
Variable write : A -> result (list byte).

(** [enc a bs]: the bytes [bs] are the encoding of [a]. *)
Variable enc : A -> list byte -> Prop.

Hypothesis read_enc :
  forall a bs rest, enc a bs -> read (bs ++ rest) = Ok (a, rest).
Hypothesis enc_nonempty : forall a bs, enc a bs -> bs <> [].
Hypothesis write_enc : forall a bs, enc a bs -> write a = Ok bs.

Lemma decode_count_items (items : list A) (encs : list (list byte)) :
  Forall2 enc items encs ->
  forall (fuel : nat) (i n : Z) (acc : list A) (rest : stream),
    n - i = Z.of_nat (length items) ->
    (length (concat encs ++ rest) < fuel)%nat ->
    decode_count read fuel i n acc (concat encs ++ rest)
    = Ok (acc ++ items, rest).
Proof.
  induction 1 as [|a bs items encs Ha _ IH];
    intros fuel i n acc rest Hn Hfuel.
  - cbn [length] in Hn. destruct fuel; cbn [decode_count concat app];
      (destruct (Z.ltb_spec i n); [lia|]); rewrite app_nil_r; reflexivity.
  - cbn [length] in Hn. destruct fuel as [|fuel]; [lia|].
    cbn [decode_count concat]. destruct (Z.ltb_spec i n); [|lia].
    rewrite <- app_assoc, (read_enc _ _ _ Ha). cbn [bind].
    rewrite IH.
    + rewrite <- app_assoc. reflexivity.
    + lia.
    + cbn [concat] in Hfuel. rewrite <- app_assoc, length_app in Hfuel.
      apply enc_nonempty in Ha. destruct bs; [congruence|].
      cbn [length] in Hfuel. lia.
Qed.

Lemma encode_count_items (items : list A) (encs : list (list byte)) :
  Forall2 enc items encs ->
  forall (fuel : nat) (done : list A),
    (length items < fuel)%nat ->
    encode_count write fuel (Z.of_nat (length done))
      (Z.of_nat (length (done ++ items))) (done ++ items)
    = Ok (concat encs).
Proof.
  induction 1 as [|a bs items encs Ha _ IH]; intros fuel done Hfuel.
  - rewrite app_nil_r. destruct fuel; cbn [encode_count concat];
      rewrite Z.ltb_irrefl; reflexivity.
  - destruct fuel as [|fuel]; [lia|]. cbn [length] in Hfuel.
    cbn [encode_count concat].
    destruct (Z.ltb_spec (Z.of_nat (length done))
                (Z.of_nat (length (done ++ a :: items)))) as [_|Hge].
    2:{ rewrite length_app in Hge. cbn [length] in Hge. lia. }
    rewrite Nat2Z.id, nth_error_app2, Nat.sub_diag by lia.
    cbn [nth_error]. rewrite (write_enc _ _ Ha). cbn [bind].
    replace (Z.of_nat (length done) + 1)
      with (Z.of_nat (length (done ++ [a])))
      by (rewrite length_app; cbn [length]; lia).
    replace (done ++ a :: items) with ((done ++ [a]) ++ items)
      by (rewrite <- app_assoc; reflexivity).
    rewrite IH by lia. reflexivity.
Qed.

Lemma encode_count_all (items : list A) (encs : list (list byte)) :
  Forall2 enc items encs ->
  forall (fuel : nat) (n : Z),
    n = Z.of_nat (length items) ->
    (length items < fuel)%nat ->
    encode_count write fuel 0 n items = Ok (concat encs).
Proof.
  intros H fuel n -> Hfuel.
  exact (encode_count_items items encs H fuel [] Hfuel).
Qed.

End CountedLoops.

(** *** Strings *)

Lemma readString_loop_terminated (body : list byte) :
  forall (bs rest : list byte),
    ~ In x00 body ->
    readString_loop bs (body ++ x00 :: rest)
    = Ok (bs ++ body ++ [x00], rest).
Proof.
  induction body as [|b body IH]; intros bs rest Hno.
  - reflexivity.
  - cbn [app readString_loop].
    destruct (Byte.eqb b x00) eqn:E.
    + apply byte_eqb_eq in E. subst b. exfalso. apply Hno. left. reflexivity.
    + rewrite (IH (bs ++ [b]) rest) by (intros Hin; apply Hno; right; exact Hin).
      rewrite <- app_assoc. reflexivity.
Qed.

Lemma readString_terminated (s rest : list byte) :
  terminated s -> readString (s ++ rest) = Ok (s, rest).
Proof.
  intros (body & -> & Hno). unfold readString.
  rewrite <- app_assoc. cbn [app]. apply readString_loop_terminated. exact Hno.
Qed.

(** What [readString] returns ends with the terminator it read, and is
    exactly what it took from the reader. *)
Lemma readString_loop_Ok (r : stream) :
  forall (bs s rest : list byte),
    readString_loop bs r = Ok (s, rest) ->
    exists body, s = bs ++ body ++ [x00] /\ ~ In x00 body /\
                 r = body ++ x00 :: rest.
Proof.
  induction r as [|b r IH]; intros bs s rest H; [discriminate|].
  cbn [readString_loop] in H. destruct (Byte.eqb b x00) eqn:E.
  - apply byte_eqb_eq in E. subst b. injection H as <- <-.
    exists []. repeat split; auto.
  - apply IH in H. destruct H as (body & -> & Hno & ->).
    exists (b :: body). repeat split.
    + rewrite <- app_assoc. reflexivity.
    + intros [Hb|Hin]; [|exact (Hno Hin)].
      subst b. cbn in E. discriminate.
Qed.

(** *** Packet sizes in canonical form are what [encodeInt] writes *)

Lemma low7_value (b : byte) : byte_to_Z (low7 b) = byte_to_Z b mod 128.
Proof.
  unfold low7. rewrite byte_to_Z_to_byte, land_127.
  pose proof (Z.mod_pos_bound (byte_to_Z b) 128 ltac:(lia)).
  apply Z.mod_small. lia.
Qed.


Lemma continuation_false_small (b : byte) :
  continuation b = false <-> byte_to_Z b < 128.
Proof.
  unfold continuation. pose proof (byte_to_Z_range b) as Hr.
  rewrite negb_false_iff, Z.eqb_eq. split.
  - intros H. destruct (Z.ltb_spec (byte_to_Z b) 128) as [|Hge]; [assumption|].
    replace (byte_to_Z b) with ((byte_to_Z b - 128) + 128) in H by lia.
    rewrite land_128_set in H by lia. discriminate.
  - intros H. apply land_128_small. lia.
Qed.

Lemma low7_clear (b : byte) : continuation b = false -> low7 b = b.
Proof.
  intros H. apply continuation_false_small in H.
  pose proof (byte_to_Z_range b) as Hr.
  unfold low7. rewrite land_127, Z.mod_small by lia. apply Z_to_byte_to_Z.
Qed.

Lemma low7_set (b : byte) :
  continuation b = true ->
  Z_to_byte (Z.lor (byte_to_Z (low7 b)) 128) = b.
Proof.
  intros H. pose proof (byte_to_Z_range b) as Hr.
  assert (Hge : 128 <= byte_to_Z b).
  { destruct (Z.ltb_spec (byte_to_Z b) 128) as [Hlt|]; [|assumption].
    apply continuation_false_small in Hlt. congruence. }
  rewrite low7_value.
  pose proof (Z.mod_pos_bound (byte_to_Z b) 128 ltac:(lia)) as Hm.
  rewrite lor_128_small by exact Hm.
  replace (byte_to_Z b mod 128 + 128) with (byte_to_Z b);
    [apply Z_to_byte_to_Z|].
  replace (byte_to_Z b) with ((byte_to_Z b - 128) + 1 * 128) at 2 by lia.
  rewrite Z.mod_add, Z.mod_small by lia. lia.
Qed.

Lemma value_le_app (l : list byte) (g : byte) :
  value_le (l ++ [g]) = value_le l + byte_to_Z g * 128 ^ Z.of_nat (length l).
Proof.
  induction l as [|a l IH]; cbn [app value_le length].
  - cbn. lia.
  - rewrite IH, Nat2Z.inj_succ, Z.pow_succ_r by lia. ring.
Qed.

Lemma fold_accumulate_value (bs : list byte) :
  forall res,
    0 <= res ->
    fold_left accumulate bs res
    = res * 128 ^ Z.of_nat (length bs) + value_le (rev (map low7 bs)).
Proof.
  induction bs as [|b bs IH]; intros res Hres.
  - cbn. lia.
  - cbn [fold_left map rev length].
    pose proof (Z.mod_pos_bound (byte_to_Z b) 128 ltac:(lia)) as Hm.
    rewrite IH by (rewrite accumulate_eq; lia).
    rewrite value_le_app, length_rev, length_map, low7_value, accumulate_eq.
    rewrite Nat2Z.inj_succ, Z.pow_succ_r by lia. ring.
Qed.



Lemma encodeInt_emit_prefix (l x : list byte) :
  forall n, (n <= length l)%nat ->
    encodeInt_emit (l ++ x) n = encodeInt_emit l n.
Proof.
  induction n as [|i IH]; intros Hn; [reflexivity|].
  cbn [encodeInt_emit]. rewrite app_nth1 by lia. rewrite IH by lia.
  reflexivity.
Qed.

(** The second loop of [encodeInt] puts the flags back on the groups of a
    run of continuation bytes. *)
Lemma encodeInt_emit_pre (tl : list byte) (pre : list byte) :
  tl <> [] ->
  Forall (fun b => continuation b = true) pre ->
  encodeInt_emit (tl ++ rev (map low7 pre)) (length tl + length pre)
  = pre ++ encodeInt_emit tl (length tl).
Proof.
  intros Htl. induction pre as [|b pre IH]; intros Hall.
  - cbn [map rev length app]. rewrite app_nil_r, Nat.add_0_r. reflexivity.
  - inversion Hall as [|? ? Hb Hall']; subst.
    cbn [map rev length]. rewrite Nat.add_succ_r.
    cbn [encodeInt_emit].
    rewrite app_assoc.
    rewrite app_nth2
      by (rewrite length_app, length_rev, length_map; lia).
    rewrite length_app, length_rev, length_map, Nat.sub_diag.
    cbn [nth].
    destruct (Z.ltb_spec 0 (Z.of_nat (length tl + length pre))) as [_|Hz].
    2:{ destruct tl; [congruence|cbn [length] in Hz; lia]. }
    rewrite low7_set by exact Hb.
    rewrite encodeInt_emit_prefix
      by (rewrite length_app, length_rev, length_map; lia).
    rewrite IH by exact Hall'. reflexivity.
Qed.


(** *** Payloads of well-formed chunks *)


Lemma read_uint32_app (buf rest : list byte) :
  length buf = 4%nat -> read_uint32 (buf ++ rest) = Ok (be_uint buf, rest).
Proof.
  intros H. unfold read_uint32. rewrite ReadFull_app by lia. reflexivity.
Qed.


Lemma AudioFormat_valid (p rest : list byte) :
  length p = 32%nat ->
  AudioFormat_decode (p ++ rest) = Ok (parse_AudioFormat p, rest)
  /\ AudioFormat_encode (parse_AudioFormat p) = Ok p.
Proof.
  intros H. unfold AudioFormat_decode, AudioFormat_encode.
  rewrite ReadFull_app by lia. rewrite bytes_parse_AudioFormat by exact H.
  split; reflexivity.
Qed.

Lemma channel_enc_read d bs rest :
  channel_enc d bs -> read_ChannelDescription (bs ++ rest) = Ok (d, rest).
Proof.
  intros [Hl ->]. unfold read_ChannelDescription.
  rewrite ReadFull_app by lia. reflexivity.
Qed.

Lemma channel_enc_nonempty d bs : channel_enc d bs -> bs <> [].
Proof. intros [Hl _] ->. discriminate. Qed.

Lemma channel_enc_write d bs :
  channel_enc d bs -> write_ChannelDescription d = Ok bs.
Proof.
  intros [Hl ->]. unfold write_ChannelDescription.
  rewrite bytes_parse_ChannelDescription by exact Hl. reflexivity.
Qed.

Lemma info_enc_read c bs rest :
  info_enc c bs -> Information_decode (bs ++ rest) = Ok (c, rest).
Proof.
  intros (-> & Hk & Hv). unfold Information_decode.
  rewrite <- app_assoc, readString_terminated by exact Hk. cbn [bind].
  rewrite readString_terminated by exact Hv. destruct c; reflexivity.
Qed.

Lemma info_enc_nonempty c bs : info_enc c bs -> bs <> [].
Proof.
  intros (-> & (body & -> & _) & _) H.
  apply app_eq_nil in H. destruct H as [H _].
  apply app_eq_nil in H. destruct H as [_ H]. discriminate.
Qed.

Lemma info_enc_write c bs : info_enc c bs -> Information_encode c = Ok bs.
Proof. intros (-> & _ & _). reflexivity. Qed.

Lemma packet_enc_read e bs rest :
  packet_enc e bs -> decodeInt (bs ++ rest) = Ok (e, rest).
Proof.
  intros [He Hbs].
  destruct (decodeInt_encodeInt e rest He) as (bs' & Hbs' & _ & Hd).
  rewrite Hbs in Hbs'. injection Hbs' as <-. exact Hd.
Qed.

Lemma packet_enc_nonempty e bs : packet_enc e bs -> bs <> [].
Proof.
  intros [He Hbs].
  destruct (decodeInt_encodeInt e [] He) as (bs' & Hbs' & Hne & _).
  rewrite Hbs in Hbs'. injection Hbs' as <-. exact Hne.
Qed.

Lemma packet_enc_write e bs : packet_enc e bs -> encodeInt e = Ok bs.
Proof. intros [_ H]. exact H. Qed.




Lemma LimitReader_ReadAll_app (blob rest : list byte) :
  LimitReader_ReadAll (blob ++ rest) (Z.of_nat (length blob)) = (blob, rest).
Proof.
  unfold LimitReader_ReadAll.
  destruct (Z.leb_spec (Z.of_nat (length blob)) 0) as [Hz|Hz].
  - destruct blob; [reflexivity|cbn [length] in Hz; lia].
  - rewrite length_app.
    destruct (Z.leb_spec (Z.of_nat (length blob + length rest))
                (Z.of_nat (length blob))) as [Hl|Hl].
    + destruct rest; [rewrite app_nil_r; reflexivity|cbn [length] in Hl; lia].
    + rewrite Nat2Z.id, firstn_app, skipn_app, Nat.sub_diag, firstn_all,
        skipn_all. cbn [firstn skipn]. rewrite app_nil_r. reflexivity.
Qed.



Lemma read_blob_app (p rest : list byte) (n : Z) :
  n = Z.of_nat (length p) -> read_blob n (p ++ rest) = Ok (p, rest).
Proof.
  intros ->. unfold read_blob.
  destruct (Z.ltb_spec (Z.of_nat (length p)) 0); [lia|].
  apply ReadFull_app. reflexivity.
Qed.

(** *** Chunk headers *)

Lemma parse_ChunkHeader_bytes (ty : FourByteString) (sz : list byte) :
  length sz = 8%nat ->
  parse_ChunkHeader (FourByteString_bytes ty ++ sz)
  = {| ChunkType := ty; ChunkSize := signed 64 (be_uint sz) |}.
Proof.
  intros H. destruct ty as [[[a b] c] d]. explode sz 8. reflexivity.
Qed.


Lemma ChunkSize_parse_range (hdr : list byte) :
  - 2 ^ 63 <= ChunkSize (parse_ChunkHeader hdr) < 2 ^ 63.
Proof.
  unfold parse_ChunkHeader. cbn [ChunkSize].
  pose proof (be_uint_range (sub hdr 4 8)) as Hu.
  assert (Hl : (length (sub hdr 4 8) <= 8)%nat)
    by (unfold sub; rewrite length_firstn; lia).
  assert (Hp : 2 ^ (8 * Z.of_nat (length (sub hdr 4 8))) <= 2 ^ 64)
    by (apply Z.pow_le_mono_r; lia).
  unfold signed. change (64 - 1) with 63.
  destruct (Z.ltb_spec (be_uint (sub hdr 4 8)) (2 ^ 63)); lia.
Qed.

Lemma FourByteString_bytes_length (ty : FourByteString) :
  length (FourByteString_bytes ty) = 4%nat.
Proof. destruct ty as [[[a b] c] d]. reflexivity. Qed.

Lemma Chunk_decode_header (ty : FourByteString) (sz r : list byte) :
  length sz = 8%nat ->
  Chunk_decode (FourByteString_bytes ty ++ sz ++ r)
  = Chunk_decode_switch
      {| ChunkType := ty; ChunkSize := signed 64 (be_uint sz) |} r.
Proof.
  intros H. unfold Chunk_decode.
  rewrite app_assoc, ReadFull_app
    by (rewrite length_app, FourByteString_bytes_length, H; reflexivity).
  cbn [bind]. rewrite parse_ChunkHeader_bytes by exact H. reflexivity.
Qed.

Lemma FourByteString_eqb_refl (ty : FourByteString) :
  FourByteString_eqb ty ty = true.
Proof.
  destruct ty as [[[a b] c] d]. cbn.
  rewrite !(proj2 (byte_eqb_eq _ _) eq_refl). reflexivity.
Qed.

Lemma FourByteString_eqb_eq (a b : FourByteString) :
  FourByteString_eqb a b = true <-> a = b.
Proof.
  split; [|intros ->; apply FourByteString_eqb_refl].
  destruct a as [[[a0 a1] a2] a3], b as [[[b0 b1] b2] b3]. cbn.
  rewrite !andb_true_iff, !byte_eqb_eq. intros [[[-> ->] ->] ->]. reflexivity.
Qed.


(** Decides the comparisons of the [switch] between two chunk type
    constants. *)
Ltac switch_consts :=
  repeat match goal with
  | |- context [FourByteString_eqb ?a ?b] =>
      let v := eval vm_compute in (FourByteString_eqb a b) in
      change (FourByteString_eqb a b) with v
  end;
  cbv iota.




(** *** Well-formed files *)




Lemma parse_FileHeader_bytes (ty : FourByteString) (ver flags : list byte) :
  length ver = 2%nat -> length flags = 2%nat ->
  FileType (parse_FileHeader (FourByteString_bytes ty ++ ver ++ flags)) = ty.
Proof.
  intros Hv Hf. destruct ty as [[[a b] c] d].
  explode ver 2. explode flags 2. reflexivity.
Qed.


(** *** The file header written back *)

Lemma signed16_mod (v : Z) :
  - 2 ^ 15 <= v < 2 ^ 15 -> signed 16 (v mod 2 ^ 16) = v.
Proof.
  intros Hv. unfold signed. change (16 - 1) with 15.
  destruct (Z.ltb_spec (v mod 2 ^ 16) (2 ^ 15)) as [H|H].
  - destruct (Z.ltb_spec v 0).
    + replace v with ((v + 2 ^ 16) + (-1) * 2 ^ 16) in H by lia.
      rewrite Z.mod_add, Z.mod_small in H by lia. lia.
    + apply Z.mod_small. lia.
  - destruct (Z.ltb_spec v 0).
    + replace v with ((v + 2 ^ 16) + (-1) * 2 ^ 16) at 1 by lia.
      rewrite Z.mod_add, Z.mod_small by lia. lia.
    + rewrite Z.mod_small in H by lia. lia.
Qed.

Lemma parse_bytes_FileHeader (h : FileHeader) :
  - 2 ^ 15 <= FileVersion h < 2 ^ 15 ->
  - 2 ^ 15 <= FileFlags h < 2 ^ 15 ->
  parse_FileHeader (bytes_FileHeader h) = h.
Proof.
  intros Hv Hf. destruct h as [[[[a b] c] d] ver flags].
  cbn [FileVersion FileFlags] in *.
  unfold bytes_FileHeader, parse_FileHeader.
  cbn [FileType FileVersion FileFlags FourByteString_bytes app].
  pose proof (be_bytes_length 2 ver) as Lv.
  pose proof (be_bytes_length 2 flags) as Lf.
  pose proof (be_uint_be_bytes 2 ver) as Ev.
  pose proof (be_uint_be_bytes 2 flags) as Ef.
  destruct (be_bytes 2 ver) as [|v0 [|v1 [|]]]; try discriminate.
  destruct (be_bytes 2 flags) as [|f0 [|f1 [|]]]; try discriminate.
  cbn [sub firstn skipn app FourByteString_of nth].
  rewrite Ev, Ef. change (8 * Z.of_nat 2) with 16.
  rewrite !signed16_mod by assumption. reflexivity.
Qed.

(** C10.  [FileHeader.Encode] validates nothing: it writes the four bytes
    of [FileType] and the big-endian version and flags, from which a
    header within the [int16] ranges is read back unchanged, and it
    succeeds whatever the magic tag is; when the tag is not "caff",
    [File.Decode] rejects what [File.Encode] wrote. *)
Theorem FileHeader_Encode_writes_any_magic
  (h : FileHeader) (chunks : list Chunk) (cf : File) (out : list byte) :
  FileHeader_Encode h
  = Ok (FourByteString_bytes (FileType h)
          ++ be_bytes 2 (FileVersion h) ++ be_bytes 2 (FileFlags h))
  /\ (- 2 ^ 15 <= FileVersion h < 2 ^ 15 ->
      - 2 ^ 15 <= FileFlags h < 2 ^ 15 ->
      parse_FileHeader (bytes_FileHeader h) = h)
  /\ (FileType h <> caff ->
      File_Encode {| File_FileHeader := h; Chunks := chunks |} = Ok out ->
      File_Decode cf out = Err ErrInvalidCaffHeader).
Proof.
  split; [reflexivity|]. split; [apply parse_bytes_FileHeader|].
  intros Hty. unfold File_Encode, FileHeader_Encode.
  cbn [File_FileHeader Chunks bind].
  destruct (File_Encode_chunks chunks) as [outs| | |]; cbn [bind];
    try discriminate.
  intros [= <-]. unfold File_Decode, FileHeader_Decode.
  assert (Hlen : length (bytes_FileHeader h) = 8%nat).
  { unfold bytes_FileHeader.
    rewrite !length_app, FourByteString_bytes_length, !be_bytes_length.
    reflexivity. }
  rewrite ReadFull_app by lia. cbn [bind].
  unfold bytes_FileHeader at 1.
  rewrite parse_FileHeader_bytes by apply be_bytes_length.
  destruct (FourByteString_eqb (FileType h) caff) eqn:E.
  - apply FourByteString_eqb_eq in E. contradiction.
  - reflexivity.
Qed.

Lemma FileHeader_Encode_writes_any_magic_witness :
  let h := {| FileType := (x78, x78, x78, x78);
              FileVersion := 1; FileFlags := 0 |} in
  File_Encode {| File_FileHeader := h; Chunks := [] |}
  = Ok [x78; x78; x78; x78; x00; x01; x00; x00]
  /\ parse_FileHeader (bytes_FileHeader h) = h
  /\ File_Decode zero_File [x78; x78; x78; x78; x00; x01; x00; x00]
     = Err ErrInvalidCaffHeader.
Proof.
  intros h.
  destruct (FileHeader_Encode_writes_any_magic h [] zero_File
              [x78; x78; x78; x78; x00; x01; x00; x00]) as (_ & Hp & Hd).
  split; [reflexivity|]. split.
  - apply Hp; cbn; lia.
  - apply Hd; [discriminate|reflexivity].
Defined.

(** *** Unrecognised chunks and audio data *)





(** *** Information strings and the magic tag *)

Lemma readString_Ok (r s rest : list byte) :
  readString r = Ok (s, rest) -> terminated s /\ r = s ++ rest.
Proof.
  intros H. apply readString_loop_Ok in H.
  destruct H as (body & -> & Hno & ->). cbn [app]. split.
  - exists body. split; [reflexivity|exact Hno].
  - rewrite <- app_assoc. reflexivity.
Qed.

(** C5, amended.  Each key and value of an information entry is read up
    to and including its zero terminator, and the terminator is kept as the
    last byte of the string stored in [Information]; [writeString] writes
    the stored bytes and appends nothing, so the entry is written back as
    it was read. *)
Theorem information_strings_keep_terminator
  (r : stream) (c : Information) (rest : stream) :
  Information_decode r = Ok (c, rest) ->
  terminated (Key c) /\ terminated (Value c)
  /\ r = Key c ++ Value c ++ rest
  /\ writeString (Key c) = Ok (Key c)
  /\ writeString (Value c) = Ok (Value c)
  /\ Information_encode c = Ok (Key c ++ Value c).
Proof.
  unfold Information_decode. intros H.
  destruct (readString r) as [[key r1]| | |] eqn:Hk; cbn [bind] in H;
    try discriminate.
  destruct (readString r1) as [[value r2]| | |] eqn:Hv; cbn [bind] in H;
    try discriminate.
  injection H as <- <-. cbn [Key Value].
  apply readString_Ok in Hk, Hv. destruct Hk as [Tk ->], Hv as [Tv ->].
  repeat split; assumption || reflexivity.
Qed.

Lemma information_strings_keep_terminator_witness :
  terminated [x6b; x00] /\ terminated [x76; x00]
  /\ [x6b; x00; x76; x00; xff] = [x6b; x00] ++ [x76; x00] ++ [xff]
  /\ writeString [x6b; x00] = Ok [x6b; x00]
  /\ writeString [x76; x00] = Ok [x76; x00]
  /\ Information_encode {| Key := [x6b; x00]; Value := [x76; x00] |}
     = Ok ([x6b; x00] ++ [x76; x00]).
Proof.
  exact (information_strings_keep_terminator
           [x6b; x00; x76; x00; xff]
           {| Key := [x6b; x00]; Value := [x76; x00] |} [xff] eq_refl).
Defined.

Lemma information_terminator_not_stripped :
  Information_decode [x6b; x00; x76; x00]
  = Ok ({| Key := [x6b; x00]; Value := [x76; x00] |}, [])
  /\ Information_encode {| Key := [x6b]; Value := [x76] |} = Ok [x6b; x76].
Proof. split; reflexivity. Qed.

(** C7, amended.  For an input whose first four bytes are not "caff",
    [File.Decode] fails with the malformed-header error whenever the input
    holds the whole 8-byte file header, whatever follows it; a shorter
    non-empty input fails with [io.ErrUnexpectedEOF] and an empty one with
    [io.EOF], before the tag is looked at. *)
Theorem bad_magic_rejected_once_header_is_read (cf : File) (B : list byte) :
  firstn 4 B <> FourByteString_bytes caff ->
  File_Decode cf B
  = match B with
    | [] => Err EOF
    | _ :: _ =>
        if (length B <? 8)%nat then Err ErrUnexpectedEOF
        else Err ErrInvalidCaffHeader
    end.
Proof.
  intros Hty. unfold File_Decode, FileHeader_Decode, ReadFull.
  cbn [Z.leb Z.compare]. destruct B as [|b0 B]; [reflexivity|].
  destruct (Nat.ltb_spec (length (b0 :: B)) 8) as [Hl|Hl].
  - destruct (Z.ltb_spec (Z.of_nat (length (b0 :: B))) 8); [reflexivity|lia].
  - destruct (Z.ltb_spec (Z.of_nat (length (b0 :: B))) 8); [lia|].
    cbn [bind].
    destruct B as [|b1 [|b2 [|b3 [|b4 [|b5 [|b6 [|b7 B]]]]]]];
      cbn [length] in Hl; try lia.
    change (Z.to_nat 8) with 8%nat.
    cbn [firstn skipn parse_FileHeader sub FourByteString_of nth FileType].
    change (FourByteString_of [b0; b1; b2; b3]) with (b0, b1, b2, b3).
    destruct (FourByteString_eqb (b0, b1, b2, b3) caff) eqn:E; [|reflexivity].
    apply FourByteString_eqb_eq in E. exfalso. apply Hty.
    cbn [firstn]. injection E as -> -> -> ->. reflexivity.
Qed.

Lemma bad_magic_rejected_witness :
  File_Decode zero_File [x7a; x7a; x7a; x7a; x00; x01; x00; x00; xff]
  = Err ErrInvalidCaffHeader.
Proof.
  apply (bad_magic_rejected_once_header_is_read zero_File
           [x7a; x7a; x7a; x7a; x00; x01; x00; x00; xff]).
  discriminate.
Defined.

Lemma bad_magic_short_stream_not_malformed :
  firstn 4 [x7a; x7a; x7a; x7a] <> FourByteString_bytes caff
  /\ File_Decode zero_File [x7a; x7a; x7a; x7a] = Err ErrUnexpectedEOF.
Proof. split; [discriminate|reflexivity]. Qed.

(** *** Outcomes of the decoders on arbitrary input *)


















Lemma LimitReader_ReadAll_split (r : stream) (n : Z) :
  r = fst (LimitReader_ReadAll r n) ++ snd (LimitReader_ReadAll r n).
Proof.
  unfold LimitReader_ReadAll. destruct (n <=? 0); [reflexivity|].
  destruct (_ <=? n); cbn [fst snd].
  - rewrite app_nil_r. reflexivity.
  - symmetry. apply firstn_skipn.
Qed.








(** *** Input that ends inside a chunk *)








(** *** Termination and panics of the decoder *)





(** *** Sample inputs *)





(** A packet table that declares three packets and is cut after the
    second: [decodeInt] answers [io.EOF], which the chunk loop of
    [File.Decode] takes for the end of the file. *)
Example packet_table_cut_between_entries :
  File_Decode zero_File
    [x63; x61; x66; x66; x00; x01; x00; x00;
     x70; x61; x6b; x74; x00; x00; x00; x00; x00; x00; x00; x1b;
     x00; x00; x00; x00; x00; x00; x00; x03;
     x00; x00; x00; x00; x00; x00; x08; x00;
     x00; x00; x00; x00; x00; x00; x00; x00;
     x82; x2c; x05]
  = Ok {| File_FileHeader :=
            {| FileType := caff; FileVersion := 1; FileFlags := 0 |};
          Chunks := [] |}.
Proof. reflexivity. Qed.

(** Outside the well-formed files the identity can fail: a packet size
    written with a leading zero group, [0x80 0x05], is read as 5 and
    written back as the single byte [0x05]. *)
Example non_canonical_packet_size_not_reproduced :
  (f <- File_Decode zero_File
          [x63; x61; x66; x66; x00; x01; x00; x00;
           x70; x61; x6b; x74; x00; x00; x00; x00; x00; x00; x00; x1a;
           x00; x00; x00; x00; x00; x00; x00; x01;
           x00; x00; x00; x00; x00; x00; x08; x00;
           x00; x00; x00; x00; x00; x00; x00; x00;
           x80; x05] ;;
   File_Encode f)
  = Ok [x63; x61; x66; x66; x00; x01; x00; x00;
        x70; x61; x6b; x74; x00; x00; x00; x00; x00; x00; x00; x1a;
        x00; x00; x00; x00; x00; x00; x00; x01;
        x00; x00; x00; x00; x00; x00; x08; x00;
        x00; x00; x00; x00; x00; x00; x00; x00;
        x05].
Proof. reflexivity. Qed.

(** *** The encoders stay within their fuel *)

Lemma encodeInt_total (i : Z) : exists bs, encodeInt i = Ok bs.
Proof.
  unfold encodeInt.
  destruct (encodeInt_groups_spec 10 10 (uint64 i) []) as (gs & Hgs & _).
  - lia.
  - unfold uint64. pose proof (Z.mod_pos_bound i (2 ^ 64) ltac:(lia)) as H.
    change (128 ^ Z.of_nat 10) with (2 ^ 70).
    assert (2 ^ 64 < 2 ^ 70) by (apply Z.pow_lt_mono_r; lia). lia.
  - rewrite Hgs. cbn [bind]. eexists. reflexivity.
Qed.

Lemma bind_fuel {A B : Type} (m : result A) (f : A -> result B) :
  m <> OutOfFuel -> (forall a, m = Ok a -> f a <> OutOfFuel) ->
  bind m f <> OutOfFuel.
Proof.
  destruct m; cbn [bind]; intros H1 H2; auto; discriminate.
Qed.

Lemma encode_count_fuel {A : Type} (write : A -> result (list byte))
  (n : Z) (items : list A) :
  (forall a, write a <> OutOfFuel) ->
  forall (fuel : nat) (i : Z),
    0 <= i -> (Z.to_nat i <= length items)%nat ->
    (length items < Z.to_nat i + fuel)%nat ->
    encode_count write fuel i n items <> OutOfFuel.
Proof.
  intros Hw. induction fuel as [|fuel IH]; intros i Hi Hle Hlt; [lia|].
  cbn [encode_count]. destruct (i <? n); [|discriminate].
  destruct (nth_error items (Z.to_nat i)) as [v|] eqn:E; [|discriminate].
  assert (Z.to_nat i < length items)%nat
    by (apply nth_error_Some; congruence).
  apply bind_fuel; [apply Hw|]. intros bs _.
  apply bind_fuel; [|discriminate].
  apply IH; lia.
Qed.

Lemma encodeInt_fuel (e : Z) : encodeInt e <> OutOfFuel.
Proof. destruct (encodeInt_total e) as (bs & ->). discriminate. Qed.

Lemma Chunk_Encode_fuel (c : Chunk) : Chunk_Encode c <> OutOfFuel.
Proof.
  unfold Chunk_Encode.
  repeat match goal with
         | |- (if ?b then _ else _) <> _ => destruct b
         end;
    destruct (Contents c); try discriminate.
  - unfold ChannelLayout_encode.
    apply bind_fuel; [|discriminate]. apply bind_fuel; [|discriminate].
    apply encode_count_fuel; [discriminate|lia|cbn; lia|cbn; lia].
  - unfold CAFStringsChunk_encode.
    apply bind_fuel; [|discriminate]. apply bind_fuel; [|discriminate].
    apply encode_count_fuel; [discriminate|lia|cbn; lia|cbn; lia].
  - unfold PacketTable_encode.
    apply bind_fuel; [|discriminate]. apply bind_fuel; [|discriminate].
    apply encode_count_fuel; [exact encodeInt_fuel|lia|cbn; lia|cbn; lia].
Qed.

Lemma File_Encode_fuel (cf : File) : File_Encode cf <> OutOfFuel.
Proof.
  unfold File_Encode, FileHeader_Encode. cbn [bind].
  apply bind_fuel; [|discriminate].
  induction (Chunks cf) as [|c cs IH]; cbn [File_Encode_chunks];
    [discriminate|].
  apply bind_fuel; [apply Chunk_Encode_fuel|].
  intros [out c'] _. apply bind_fuel; [exact IH|discriminate].
Qed.

(** ** The variable-length integers, beyond the round trip *)

Lemma encodeInt_groups_canon (fuel : nat) :
  forall (cur : Z) (byts out : list byte),
    0 <= cur ->
    encodeInt_groups fuel cur byts = Ok out ->
    exists gs,
      out = byts ++ gs /\ gs <> [] /\ Forall is_group gs /\
      value_le gs = cur /\
      (byte_to_Z (last gs x00) <> 0 \/ length gs = 1%nat).
Proof.
  induction fuel as [|fuel IH]; intros cur byts out Hcur H; [discriminate|].
  cbn [encodeInt_groups] in H.
  rewrite land_127, Z.shiftr_div_pow2 in H by lia.
  change (2 ^ 7) with 128 in H.
  assert (Hg : byte_to_Z (Z_to_byte (cur mod 128)) = cur mod 128).
  { rewrite byte_to_Z_to_byte. apply Z.mod_small.
    pose proof (Z.mod_pos_bound cur 128). lia. }
  pose proof (Z.mod_pos_bound cur 128 ltac:(lia)) as Hm.
  pose proof (Z.div_mod cur 128 ltac:(lia)) as Hd.
  destruct (cur / 128 =? 0) eqn:E.
  - apply Z.eqb_eq in E. injection H as <-.
    exists [Z_to_byte (cur mod 128)].
    split; [reflexivity|]. split; [discriminate|].
    split; [constructor; [unfold is_group; lia|constructor]|].
    split; [cbn [value_le]; lia|]. right; reflexivity.
  - apply Z.eqb_neq in E.
    destruct (IH (cur / 128) _ _ ltac:(apply Z.div_pos; lia) H)
      as (gs & -> & Hne & Hgs & Hv & Hl).
    exists (Z_to_byte (cur mod 128) :: gs).
    split; [rewrite <- app_assoc; reflexivity|]. split; [discriminate|].
    split; [constructor; [unfold is_group; lia|assumption]|].
    split; [cbn [value_le]; lia|].
    left. destruct gs as [|g gs]; [congruence|].
    change (last (Z_to_byte (cur mod 128) :: g :: gs) x00)
      with (last (g :: gs) x00).
    destruct Hl as [Hl|Hl]; [assumption|].
    destruct gs; [|discriminate]. cbn [last]. cbn [value_le] in Hv. lia.
Qed.

Lemma flagged_continuation (g : byte) :
  is_group g -> continuation (flagged g) = true.
Proof.
  unfold is_group, flagged, continuation. intros Hg.
  pose proof (byte_to_Z_range g).
  rewrite lor_128_small, byte_to_Z_to_byte, Z.mod_small by lia.
  rewrite land_128_set by lia. reflexivity.
Qed.

Lemma flagged_low7 (g : byte) : is_group g -> low7 (flagged g) = g.
Proof.
  unfold is_group, flagged, low7. intros Hg.
  pose proof (byte_to_Z_range g).
  rewrite lor_128_small, byte_to_Z_to_byte, Z.mod_small by lia.
  rewrite land_127.
  replace (byte_to_Z g + 128) with (byte_to_Z g + 1 * 128) by lia.
  rewrite Z.mod_add, Z.mod_small by lia. apply Z_to_byte_to_Z.
Qed.

Lemma flagged_land (g : byte) :
  is_group g -> Z.land (byte_to_Z (flagged g)) 127 = byte_to_Z g.
Proof.
  intros Hg. pose proof (low7_value (flagged g)) as H.
  rewrite flagged_low7 in H by assumption. rewrite land_127. lia.
Qed.

Lemma map_low7_flagged (gs : list byte) :
  Forall is_group gs -> map low7 (map flagged gs) = gs.
Proof.
  induction 1 as [|g gs Hg _ IH]; [reflexivity|].
  cbn [map]. rewrite flagged_low7, IH by assumption. reflexivity.
Qed.

Lemma encodeInt_emit_groups (g0 : byte) (gs : list byte) :
  Forall is_group gs ->
  encodeInt_emit (g0 :: gs) (length (g0 :: gs))
  = map flagged (rev gs) ++ [g0].
Proof.
  intros Hgs.
  assert (Hrev : Forall is_group (rev gs)).
  { apply Forall_forall. intros x Hx. apply In_rev in Hx.
    rewrite Forall_forall in Hgs. auto. }
  pose proof (encodeInt_emit_pre [g0] (map flagged (rev gs))
                ltac:(discriminate)) as H.
  rewrite map_low7_flagged, rev_involutive in H by assumption.
  rewrite length_map, length_rev in H.
  change ([g0] ++ gs) with (g0 :: gs) in H.
  change (length [g0] + length gs)%nat with (length (g0 :: gs)) in H.
  rewrite H; [reflexivity|].
  apply Forall_forall. intros x Hx. apply in_map_iff in Hx.
  destruct Hx as (g & <- & Hg). apply flagged_continuation.
  rewrite Forall_forall in Hrev. auto.
Qed.

(** What [encodeInt] writes, in terms of the groups of its first loop. *)
Lemma encodeInt_shape (i : Z) :
  exists (g0 : byte) (gs : list byte),
    encodeInt i = Ok (map flagged (rev gs) ++ [g0]) /\
    Forall is_group (g0 :: gs) /\
    value_le (g0 :: gs) = uint64 i /\
    (byte_to_Z (last (g0 :: gs) x00) <> 0 \/ gs = []) /\
    (forall n : nat, (1 <= n)%nat -> uint64 i < 128 ^ Z.of_nat n ->
                     (length (g0 :: gs) <= n)%nat).
Proof.
  assert (Hu : 0 <= uint64 i < 2 ^ 64)
    by (unfold uint64; apply Z.mod_pos_bound; lia).
  destruct (encodeInt_groups_spec 10 10 (uint64 i) [] ltac:(lia)
              ltac:(change (128 ^ Z.of_nat 10) with (2 ^ 70); lia))
    as (gs & Hrun & Hlen & _ & _).
  destruct (encodeInt_groups_canon 10 _ _ _ (proj1 Hu) Hrun)
    as (gs' & Hgs' & Hne & Hgrp & Hval & Hlast).
  cbn [app] in Hgs'. subst gs'.
  destruct gs as [|g0 gs]; [congruence|].
  exists g0, gs. unfold encodeInt. rewrite Hrun. cbn [bind app].
  inversion Hgrp; subst.
  rewrite encodeInt_emit_groups by assumption.
  split; [reflexivity|]. split; [assumption|]. split; [assumption|].
  split.
  - destruct Hlast as [Hl|Hl]; [left; assumption|right].
    destruct gs; [reflexivity|discriminate].
  - intros n Hn Hb.
    destruct (Nat.le_gt_cases n 10) as [Hn10|Hn10]; [|cbn [length] in *; lia].
    destruct (encodeInt_groups_spec 10 n (uint64 i) [] ltac:(lia)
                ltac:(lia)) as (gs2 & Hrun2 & Hlen2 & _).
    rewrite Hrun in Hrun2. injection Hrun2 as <-. lia.
Qed.

(** X1.  [encodeInt] never fails and writes the shortest encoding of its
    argument: between one and ten bytes, every byte but the last with the
    continuation flag and the last without it, no leading zero group, the
    seven-bit groups accumulating to the argument (taken as a [uint64]) most
    significant first; a value below [128 ^ n] takes at most [n] bytes. *)
Theorem encodeInt_writes_shortest_encoding (i : Z) :
  exists (pre : list byte) (lst : byte),
    encodeInt i = Ok (pre ++ [lst]) /\
    Forall (fun b => continuation b = true) pre /\
    continuation lst = false /\
    (length pre < 10)%nat /\
    match pre with
    | [] => True
    | b :: _ => Z.land (byte_to_Z b) 127 <> 0
    end /\
    fold_left accumulate (pre ++ [lst]) 0 = uint64 i /\
    (forall n : nat, (1 <= n)%nat -> uint64 i < 128 ^ Z.of_nat n ->
                     (length (pre ++ [lst]) <= n)%nat).
Proof.
  destruct (encodeInt_shape i) as (g0 & gs & Henc & Hgrp & Hval & Hlast & Hmin).
  inversion Hgrp as [|? ? Hg0 Hgs]; subst.
  assert (Hrev : Forall is_group (rev gs)).
  { apply Forall_forall. intros x Hx. apply In_rev in Hx.
    rewrite Forall_forall in Hgs. auto. }
  assert (Hu : 0 <= uint64 i < 2 ^ 64)
    by (unfold uint64; apply Z.mod_pos_bound; lia).
  exists (map flagged (rev gs)), g0.
  split; [exact Henc|].
  split.
  { apply Forall_forall. intros x Hx. apply in_map_iff in Hx.
    destruct Hx as (g & <- & Hg). apply flagged_continuation.
    rewrite Forall_forall in Hrev. auto. }
  split; [apply continuation_false_small; exact Hg0|].
  assert (Hlen : (length (g0 :: gs) <= 10)%nat).
  { apply Hmin; [lia|]. change (128 ^ Z.of_nat 10) with (2 ^ 70). lia. }
  split; [rewrite length_map, length_rev; cbn [length] in Hlen; lia|].
  split.
  { destruct Hlast as [Hl| ->]; [|exact I].
    destruct (rev gs) as [|b l] eqn:E; [exact I|]. cbn [map].
    assert (Hb : is_group b) by (inversion Hrev; assumption).
    rewrite flagged_land by assumption.
    assert (Eg : gs = rev l ++ [b]).
    { rewrite <- (rev_involutive gs), E. reflexivity. }
    rewrite Eg in Hl.
    change (g0 :: rev l ++ [b]) with ((g0 :: rev l) ++ [b]) in Hl.
    rewrite last_last in Hl. exact Hl. }
  split.
  { rewrite fold_accumulate_value by lia.
    rewrite map_app, rev_app_distr, map_low7_flagged by assumption.
    cbn [map rev app]. rewrite rev_involutive, low7_clear
      by (apply continuation_false_small; exact Hg0).
    rewrite Z.mul_0_l, Z.add_0_l. exact Hval. }
  intros n Hn Hb. rewrite length_app, length_map, length_rev.
  specialize (Hmin n Hn Hb). cbn [length] in *. lia.
Qed.

Lemma decodeInt_loop_outcome (r : stream) :
  forall (res k : Z),
    0 <= k < 8 ->
    (decodeInt_loop res k r = Err EOF
     /\ k + Z.of_nat (length r) < 8
     /\ Forall (fun b => continuation b = true) r)
    \/ (exists v rest, decodeInt_loop res k r = Ok (v, rest)
        /\ ~ (k + Z.of_nat (length r) < 8
              /\ Forall (fun b => continuation b = true) r)).
Proof.
  induction r as [|b r IH]; intros res k Hk.
  - left. cbn. split; [reflexivity|]. split; [lia|constructor].
  - cbn [decodeInt_loop].
    destruct (Z.land (byte_to_Z b) 128 =? 0) eqn:Eb; cbn [orb].
    + right. eexists _, _. split; [reflexivity|].
      intros [_ Hall]. inversion Hall as [|? ? Hc _]; subst.
      unfold continuation in Hc. rewrite Eb in Hc. discriminate.
    + destruct (8 <=? k + 1) eqn:E8.
      * right. eexists _, _. split; [reflexivity|].
        apply Z.leb_le in E8. intros [Hlen _].
        cbn [length] in Hlen. lia.
      * apply Z.leb_gt in E8.
        destruct (IH (Z.lor (uint64 (Z.shiftl res 7))
                        (Z.land (byte_to_Z b) 127)) (k + 1) ltac:(lia))
          as [(He & Hlen & Hall)|(v & rest & Hv & Hn)].
        -- left. split; [exact He|]. split; [cbn [length]; lia|].
           constructor; [|assumption]. unfold continuation.
           rewrite Eb. reflexivity.
        -- right. exists v, rest. split; [exact Hv|].
           intros [Hlen Hall]. apply Hn.
           inversion Hall; subst. split; [cbn [length] in Hlen; lia|assumption].
Qed.

(** X2.  [decodeInt] fails in one way only: with [io.EOF], and exactly when
    the reader ends within the first eight bytes without a byte whose
    continuation flag is clear (in particular on an empty reader).  On every
    other reader it returns a value. *)
Theorem decodeInt_fails_only_at_end_of_reader (r : stream) :
  (decodeInt r = Err EOF
   <-> (length r < 8)%nat /\ Forall (fun b => continuation b = true) r)
  /\ (decodeInt r = Err EOF \/ exists v rest, decodeInt r = Ok (v, rest)).
Proof.
  unfold decodeInt.
  destruct (decodeInt_loop_outcome r 0 0 ltac:(lia))
    as [(He & Hlen & Hall)|(v & rest & Hv & Hn)].
  - split; [|left; exact He].
    split; [intros _; split; [lia|assumption]|intros _; exact He].
  - split; [|right; exists v, rest; exact Hv].
    split; [rewrite Hv; discriminate|].
    intros [Hlen Hall]. exfalso. apply Hn. split; [lia|assumption].
Qed.

Lemma value_le_bound (gs : list byte) :
  Forall is_group gs -> 0 <= value_le gs < 128 ^ Z.of_nat (length gs).
Proof.
  induction 1 as [|g gs Hg _ IH]; [cbn; lia|].
  cbn [value_le length]. rewrite Nat2Z.inj_succ, Z.pow_succ_r by lia.
  unfold is_group in Hg. pose proof (byte_to_Z_range g). lia.
Qed.

Lemma value_le_skipn (gs : list byte) :
  Forall is_group gs ->
  forall k : nat,
    value_le (skipn k gs) = value_le gs / 128 ^ Z.of_nat k.
Proof.
  induction 1 as [|g gs Hg Hgs IH]; intros k.
  - rewrite skipn_nil. cbn [value_le]. rewrite Z.div_0_l; [reflexivity|].
    apply Z.pow_nonzero; lia.
  - destruct k as [|k]; [cbn [skipn]; rewrite Z.div_1_r; reflexivity|].
    cbn [skipn value_le]. rewrite IH.
    rewrite Nat2Z.inj_succ, Z.pow_succ_r by lia.
    rewrite <- Z.div_div by (try apply Z.pow_pos_nonneg; lia).
    f_equal. unfold is_group in Hg. pose proof (byte_to_Z_range g).
    rewrite Z.add_comm, Z.mul_comm, Z.div_add_l by lia.
    rewrite Z.div_small by lia. lia.
Qed.

(** X3.  A value of [2^56] or more does not survive the round trip: for it
    [encodeInt] writes nine or ten bytes, of which [decodeInt] reads the
    first eight only, returning the value shifted right by seven bits per
    byte it left, and leaving those bytes in the reader. *)
Theorem decodeInt_reads_eight_bytes_of_longer_encoding (v : Z) (rest : stream) :
  2 ^ 56 <= v < 2 ^ 64 ->
  exists bs,
    encodeInt v = Ok bs /\
    (8 < length bs <= 10)%nat /\
    decodeInt (bs ++ rest)
    = Ok (v / 128 ^ Z.of_nat (length bs - 8), skipn 8 bs ++ rest).
Proof.
  intros Hv.
  destruct (encodeInt_shape v) as (g0 & gs & Henc & Hgrp & Hval & _ & Hmin).
  assert (Hu : uint64 v = v) by (unfold uint64; apply Z.mod_small; lia).
  rewrite Hu in *.
  pose proof (Forall_inv Hgrp) as Hg0.
  pose proof (Forall_inv_tail Hgrp) as Hgs.
  assert (Hrev : Forall is_group (rev gs)).
  { apply Forall_forall. intros x Hx. apply In_rev in Hx.
    rewrite Forall_forall in Hgs. auto. }
  assert (Hlen10 : (length (g0 :: gs) <= 10)%nat).
  { apply Hmin; [lia|]. change (128 ^ Z.of_nat 10) with (2 ^ 70). lia. }
  assert (Hlen9 : (8 < length (g0 :: gs))%nat).
  { pose proof (value_le_bound _ Hgrp) as Hb. rewrite Hval in Hb.
    destruct (Nat.le_gt_cases (length (g0 :: gs)) 8) as [Hle|]; [|assumption].
    exfalso.
    assert (128 ^ Z.of_nat (length (g0 :: gs)) <= 128 ^ 8)
      by (apply Z.pow_le_mono_r; lia).
    change (128 ^ 8) with (2 ^ 56) in *. lia. }
  cbn [length] in Hlen9, Hlen10.
  set (pre := map flagged (rev gs)) in *.
  assert (Hpl : length pre = length gs)
    by (unfold pre; rewrite length_map, length_rev; reflexivity).
  assert (Hcont : Forall (fun b => continuation b = true) pre).
  { apply Forall_forall. intros x Hx. apply in_map_iff in Hx.
    destruct Hx as (g & <- & Hg). apply flagged_continuation.
    rewrite Forall_forall in Hrev. auto. }
  exists (pre ++ [g0]). split; [exact Henc|].
  assert (Hbl : length (pre ++ [g0]) = S (length gs))
    by (rewrite length_app, Hpl; cbn [length]; lia).
  split; [lia|].
  assert (Hsplit : pre = firstn 8 pre ++ skipn 8 pre)
    by (symmetry; apply firstn_skipn).
  assert (H8 : length (firstn 8 pre) = 8%nat)
    by (rewrite length_firstn; lia).
  assert (Hc8 : Forall (fun b => continuation b = true) (firstn 8 pre)).
  { pose proof Hcont as Hc. rewrite <- (firstn_skipn 8 pre) in Hc.
    apply Forall_app in Hc. exact (proj1 Hc). }
  assert (Hval8 : fold_left accumulate (firstn 8 pre) 0
                  = v / 128 ^ Z.of_nat (S (length gs) - 8)).
  { rewrite fold_accumulate_value by lia.
    rewrite Z.mul_0_l, Z.add_0_l.
    rewrite <- firstn_map. unfold pre.
    rewrite map_low7_flagged by assumption.
    rewrite firstn_rev, rev_involutive.
    rewrite value_le_skipn by assumption.
    rewrite <- Hval. cbn [value_le].
    replace (S (length gs) - 8)%nat with (S (length gs - 8)) by lia.
    rewrite Nat2Z.inj_succ, Z.pow_succ_r by lia.
    rewrite <- Z.div_div by (try apply Z.pow_pos_nonneg; lia).
    f_equal. unfold is_group in Hg0. pose proof (byte_to_Z_range g0).
    rewrite Z.add_comm, Z.mul_comm, Z.div_add_l by lia.
    rewrite Z.div_small by lia. lia. }
  rewrite Hbl.
  replace (skipn 8 (pre ++ [g0])) with (skipn 8 pre ++ [g0])
    by (rewrite skipn_app;
        replace (8 - length pre)%nat with 0%nat by lia; reflexivity).
  rewrite <- Hval8.
  rewrite Hsplit at 1.
  remember (firstn 8 pre) as p8 eqn:Ep8. clear Ep8 Hval8 Hsplit.
  remember (skipn 8 pre) as tl. clear Heqtl.
  do 8 (destruct p8 as [|? p8]; [discriminate|]).
  destruct p8; [|discriminate].
  unfold decodeInt.
  pose proof (decodeInt_loop_stop [b; b0; b1; b2; b3; b4; b5] b6
                ((tl ++ [g0]) ++ rest) 0 0 ltac:(lia)
                ltac:(change (128 ^ 0) with 1; lia)) as Hstop.
  cbn [app] in Hstop |- *. rewrite <- !app_assoc in Hstop |- *.
  cbn [app] in Hstop |- *.
  apply Hstop.
  - repeat match goal with
           | H : Forall _ (_ :: _) |- _ => inversion H; clear H; subst
           end.
    repeat constructor; assumption.
  - cbn [length]. lia.
  - right. cbn [length]. lia.
Qed.

Lemma decodeInt_reads_eight_bytes_witness :
  exists bs,
    encodeInt (2 ^ 56) = Ok bs /\
    (8 < length bs <= 10)%nat /\
    decodeInt (bs ++ [xff])
    = Ok (2 ^ 56 / 128 ^ Z.of_nat (length bs - 8), skipn 8 bs ++ [xff]).
Proof.
  apply (decodeInt_reads_eight_bytes_of_longer_encoding (2 ^ 56) [xff]). lia.
Defined.

(** ** Strings, and the errors a decoder can return *)

Lemma readString_loop_outcome (r : stream) :
  forall bs,
    (~ In x00 r /\ readString_loop bs r = Err EOF)
    \/ exists body rest,
         r = body ++ x00 :: rest /\ ~ In x00 body
         /\ readString_loop bs r = Ok (bs ++ body ++ [x00], rest).
Proof.
  induction r as [|b r IH]; intros bs.
  - left. split; [intros []|reflexivity].
  - cbn [readString_loop]. destruct (Byte.eqb b x00) eqn:E.
    + apply byte_eqb_eq in E. subst b. right. exists [], r.
      split; [reflexivity|]. split; [intros []|reflexivity].
    + assert (Hb : b <> x00).
      { intros ->. rewrite (proj2 (byte_eqb_eq x00 x00) eq_refl) in E.
        discriminate. }
      destruct (IH (bs ++ [b])) as [(Hn & He)|(body & rest & -> & Hn & Hok)].
      * left. split; [|exact He]. intros [H|H]; [congruence|auto].
      * right. exists (b :: body), rest. split; [reflexivity|].
        split; [intros [H|H]; [congruence|auto]|].
        rewrite Hok, <- app_assoc. reflexivity.
Qed.

(** X4.  [readString] returns the bytes up to and including the first zero
    byte and leaves what follows it unread; on a reader without a zero
    byte it reads everything and fails with [io.EOF], also when the reader
    ends right after some bytes of the string. *)
Theorem readString_reads_through_first_zero_byte (r : stream) :
  (readString r = Err EOF <-> ~ In x00 r)
  /\ (forall body rest,
         ~ In x00 body ->
         readString (body ++ x00 :: rest) = Ok (body ++ [x00], rest))
  /\ (In x00 r -> exists s rest, readString r = Ok (s, rest)).
Proof.
  unfold readString. split; [|split].
  - destruct (readString_loop_outcome r [])
      as [(Hn & He)|(body & rest & -> & Hn & Hok)].
    + split; auto.
    + rewrite Hok. split; [discriminate|].
      intros H. exfalso. apply H. apply in_or_app. right. left. reflexivity.
  - intros body rest Hn. rewrite readString_loop_terminated by assumption.
    reflexivity.
  - intros Hin.
    destruct (readString_loop_outcome r [])
      as [(Hn & He)|(body & rest & -> & Hn & Hok)]; [contradiction|].
    eexists _, _. exact Hok.
Qed.

Lemma eof_error_bind {A B : Type} (m : result A) (f : A -> result B) :
  eof_error m -> (forall a, eof_error (f a)) -> eof_error (bind m f).
Proof. destruct m; cbn; auto. Qed.

Lemma ReadFull_eof_error (n : Z) (r : stream) : eof_error (ReadFull n r).
Proof.
  destruct (ReadFull_cases n r) as [(buf & rest & ->)|[-> | ->]]; exact I.
Qed.

Lemma read_uint32_eof_error (r : stream) : eof_error (read_uint32 r).
Proof.
  unfold read_uint32. apply eof_error_bind; [apply ReadFull_eof_error|].
  intros [? ?]. exact I.
Qed.

Lemma decodeInt_eof_error (r : stream) : eof_error (decodeInt r).
Proof.
  destruct (decodeInt_loop_outcome r 0 0 ltac:(lia))
    as [(He & _)|(v & rest & Hv & _)]; unfold decodeInt;
    [rewrite He|rewrite Hv]; exact I.
Qed.

Lemma readString_eof_error (r : stream) : eof_error (readString r).
Proof.
  unfold readString.
  destruct (readString_loop_outcome r [])
    as [(_ & He)|(body & rest & _ & _ & Hok)];
    [rewrite He|rewrite Hok]; exact I.
Qed.

Lemma Information_decode_eof_error (r : stream) :
  eof_error (Information_decode r).
Proof.
  unfold Information_decode.
  apply eof_error_bind; [apply readString_eof_error|]. intros [? ?].
  apply eof_error_bind; [apply readString_eof_error|]. intros [? ?].
  exact I.
Qed.

Lemma read_ChannelDescription_eof_error (r : stream) :
  eof_error (read_ChannelDescription r).
Proof.
  unfold read_ChannelDescription.
  apply eof_error_bind; [apply ReadFull_eof_error|]. intros [? ?]. exact I.
Qed.

Lemma decode_count_eof_error {A : Type}
  (read : stream -> result (A * stream)) :
  (forall r, eof_error (read r)) ->
  forall (fuel : nat) (i n : Z) (acc : list A) (r : stream),
    eof_error (decode_count read fuel i n acc r).
Proof.
  intros Hread. induction fuel as [|fuel IH]; intros i n acc r.
  - cbn. destruct (i <? n); exact I.
  - cbn [decode_count]. destruct (i <? n); [|exact I].
    apply eof_error_bind; [apply Hread|]. intros [? ?]. apply IH.
Qed.

Lemma Chunk_decode_switch_eof_error (h : ChunkHeader) (r : stream) :
  eof_error (Chunk_decode_switch h r).
Proof.
  unfold Chunk_decode_switch.
  repeat match goal with
         | |- context [if ?b then _ else _] => destruct b
         end;
    (apply eof_error_bind; [|intros [? ?]; exact I]).
  - apply eof_error_bind; [apply ReadFull_eof_error|]. intros [? ?]. exact I.
  - unfold ChannelLayout_decode.
    do 3 (apply eof_error_bind; [apply read_uint32_eof_error|]; intros [? ?]).
    apply eof_error_bind; [|intros [? ?]; exact I].
    apply decode_count_eof_error, read_ChannelDescription_eof_error.
  - unfold CAFStringsChunk_decode.
    apply eof_error_bind; [apply read_uint32_eof_error|]; intros [? ?].
    apply eof_error_bind; [|intros [? ?]; exact I].
    apply decode_count_eof_error, Information_decode_eof_error.
  - unfold Data_decode.
    apply eof_error_bind; [apply read_uint32_eof_error|]; intros [? ?].
    destruct (ChunkSize h =? -1); [exact I|].
    destruct (LimitReader_ReadAll _ _). exact I.
  - unfold PacketTable_decode.
    apply eof_error_bind; [apply ReadFull_eof_error|]; intros [? ?].
    apply eof_error_bind; [|intros [? ?]; exact I].
    apply decode_count_eof_error, decodeInt_eof_error.
  - unfold read_blob. destruct (_ <? 0); [exact I|apply ReadFull_eof_error].
  - unfold read_blob. destruct (_ <? 0); [exact I|apply ReadFull_eof_error].
Qed.

Lemma Chunk_decode_eof_error (r : stream) : eof_error (Chunk_decode r).
Proof.
  unfold Chunk_decode.
  apply eof_error_bind; [apply ReadFull_eof_error|]. intros [? ?].
  apply Chunk_decode_switch_eof_error.
Qed.

(** The chunk loop returns no error but [io.ErrUnexpectedEOF]. *)
Lemma File_Decode_loop_error (fuel : nat) :
  forall (acc : list Chunk) (r : stream) (e : error),
    File_Decode_loop fuel acc r = Err e -> e = ErrUnexpectedEOF.
Proof.
  induction fuel as [|fuel IH]; intros acc r e; [discriminate|].
  cbn [File_Decode_loop]. pose proof (Chunk_decode_eof_error r) as Hc.
  destruct (Chunk_decode r) as [[c r']|e'| |].
  - apply IH.
  - destruct e'; cbn in Hc; [discriminate| |contradiction].
    intros H. injection H as <-. reflexivity.
  - discriminate.
  - discriminate.
Qed.

(** The chunk loop started on a non-empty list of chunks. *)
Lemma File_Decode_loop_acc (fuel : nat) :
  forall (acc : list Chunk) (r : stream),
    File_Decode_loop fuel acc r
    = (cs <- File_Decode_loop fuel [] r ;; Ok (acc ++ cs)).
Proof.
  induction fuel as [|fuel IH]; intros acc r; [reflexivity|].
  cbn [File_Decode_loop].
  destruct (Chunk_decode r) as [[c r']|e| |].
  - rewrite (IH (acc ++ [c])), (IH ([] ++ [c])).
    destruct (File_Decode_loop fuel [] r'); cbn [bind app]; try reflexivity.
    rewrite <- app_assoc. reflexivity.
  - destruct e; cbn [bind]; try reflexivity. rewrite app_nil_r. reflexivity.
  - reflexivity.
  - reflexivity.
Qed.

(** X5.  [File.Decode] replaces the header of its receiver and appends the
    chunks it reads to those the receiver already holds; whether it fails,
    and how, does not depend on the receiver. *)
Theorem File_Decode_appends_to_receiver (cf : File) (r : stream) :
  File_Decode cf r
  = (f <- File_Decode zero_File r ;;
     Ok {| File_FileHeader := File_FileHeader f;
           Chunks := Chunks cf ++ Chunks f |}).
Proof.
  unfold File_Decode.
  destruct (FileHeader_Decode r) as [[h r']|e| |]; cbn [bind]; try reflexivity.
  rewrite (File_Decode_loop_acc _ (Chunks cf)). cbn [zero_File Chunks].
  destruct (File_Decode_loop (S (length r')) [] r'); reflexivity.
Qed.

(** X6.  The errors of [File.Decode]: [io.EOF] exactly on an empty input;
    the invalid-header error exactly when the input holds eight bytes or
    more and does not begin with the magic tag; and nothing else but
    [io.ErrUnexpectedEOF].  In particular an [io.EOF] met inside a chunk
    is never reported. *)
Theorem File_Decode_errors (cf : File) (B : list byte) :
  (File_Decode cf B = Err EOF <-> B = [])
  /\ (File_Decode cf B = Err ErrInvalidCaffHeader
      <-> (8 <= length B)%nat /\ firstn 4 B <> FourByteString_bytes caff)
  /\ (forall e, File_Decode cf B = Err e ->
                e = EOF \/ e = ErrInvalidCaffHeader \/ e = ErrUnexpectedEOF).
Proof.
  assert (Hloop : forall h r e,
             (chunks <- File_Decode_loop (S (length r)) (Chunks cf) r ;;
              Ok {| File_FileHeader := h; Chunks := chunks |}) = Err e ->
             e = ErrUnexpectedEOF).
  { intros h r e H.
    destruct (File_Decode_loop (S (length r)) (Chunks cf) r) eqn:E;
      cbn [bind] in H; try discriminate.
    injection H as <-. eapply File_Decode_loop_error. exact E. }
  unfold File_Decode, FileHeader_Decode.
  destruct B as [|b0 B]; [cbn; repeat split; try discriminate; auto;
                          try (intros [H _]; cbn in H; lia);
                          intros e H; injection H as <-; auto|].
  unfold ReadFull. cbn [Z.leb Z.compare].
  destruct (Z.of_nat (length (b0 :: B)) <? 8) eqn:E8.
  - apply Z.ltb_lt in E8. cbn [bind].
    split; [split; discriminate|].
    split; [split; [discriminate|intros [H _]; lia]|].
    intros e H. injection H as <-. auto.
  - apply Z.ltb_ge in E8. cbn [bind].
    do 7 (destruct B as [|? B]; [cbn [length] in E8; lia|]).
    change (Z.to_nat 8) with 8%nat. cbn [firstn skipn].
    cbv zeta.
    change (FileType (parse_FileHeader [b0; b; b1; b2; b3; b4; b5; b6]))
      with (b0, b, b1, b2).
    destruct (FourByteString_eqb (b0, b, b1, b2) caff) eqn:Et; cbn [negb].
    + apply FourByteString_eqb_eq in Et.
      split; [split; [|discriminate]|split; [split|]].
      * intros H. apply Hloop in H. discriminate.
      * intros H. apply Hloop in H. discriminate.
      * intros [_ H]. exfalso. apply H. rewrite <- Et. reflexivity.
      * intros e H. apply Hloop in H. auto.
    + split; [split; discriminate|]. split.
      * split; [intros _|reflexivity]. split; [cbn [length]; lia|].
        intros H. cbn [FourByteString_bytes] in H.
        assert (Hc : (b0, b, b1, b2) = caff).
        { unfold caff in *. cbn in H |- *. injection H as -> -> -> ->.
          reflexivity. }
        rewrite Hc, FourByteString_eqb_refl in Et. discriminate.
      * intros e H. injection H as <-. auto.
Qed.

(** ** Input that ends between two reads of a chunk *)














(** ** Encoding values built by hand *)

Lemma encode_count_from {A : Type} (write : A -> result (list byte)) (n : Z) :
  (forall a, exists bs, write a = Ok bs) ->
  forall (todo done : list A) (fuel : nat),
    (length todo < fuel)%nat ->
    let i := Z.of_nat (length done) in
    (n - i <= Z.of_nat (length todo)
     /\ exists encs,
          Forall2 (fun a bs => write a = Ok bs)
            (firstn (Z.to_nat (n - i)) todo) encs
          /\ encode_count write fuel i n (done ++ todo) = Ok (concat encs))
    \/ (Z.of_nat (length todo) < n - i
        /\ encode_count write fuel i n (done ++ todo) = Panic).
Proof.
  intros Hw. induction todo as [|a todo IH]; intros done fuel Hfuel i;
    (destruct fuel as [|fuel]; [cbn in Hfuel; lia|]);
    cbn [encode_count]; subst i.
  - destruct (Z.ltb_spec (Z.of_nat (length done)) n).
    + right. split; [cbn [length]; lia|].
      rewrite Nat2Z.id, app_nil_r.
      rewrite (proj2 (nth_error_None done (length done))) by lia.
      reflexivity.
    + left. split; [cbn [length]; lia|]. exists [].
      rewrite firstn_nil. split; [constructor|reflexivity].
  - destruct (Z.ltb_spec (Z.of_nat (length done)) n).
    + rewrite Nat2Z.id, nth_error_app2, Nat.sub_diag by lia.
      cbn [nth_error]. destruct (Hw a) as (bs & Hbs). rewrite Hbs.
      cbn [bind].
      replace (Z.of_nat (length done) + 1)
        with (Z.of_nat (length (done ++ [a])))
        by (rewrite length_app; cbn [length]; lia).
      replace (done ++ a :: todo) with ((done ++ [a]) ++ todo)
        by (rewrite <- app_assoc; reflexivity).
      cbn [length] in Hfuel.
      destruct (IH (done ++ [a]) fuel ltac:(lia))
        as [(Hle & encs & Hencs & ->)|(Hgt & ->)];
        rewrite length_app in *; cbn [length] in *.
      * left. split; [lia|]. exists (bs :: encs).
        replace (Z.to_nat (n - Z.of_nat (length done)))
          with (S (Z.to_nat (n - Z.of_nat (length done + 1)))) by lia.
        cbn [firstn]. split; [constructor; assumption|reflexivity].
      * right. split; [lia|reflexivity].
    + left. split; [cbn [length]; lia|]. exists [].
      replace (Z.to_nat (n - Z.of_nat (length done))) with 0%nat by lia.
      split; [constructor|reflexivity].
Qed.

Lemma encode_count_outcome {A : Type} (write : A -> result (list byte))
  (n : Z) (items : list A) :
  (forall a, exists bs, write a = Ok bs) ->
  (n <= Z.of_nat (length items)
   /\ exists encs,
        Forall2 (fun a bs => write a = Ok bs) (firstn (Z.to_nat n) items) encs
        /\ encode_count write (S (length items)) 0 n items = Ok (concat encs))
  \/ (Z.of_nat (length items) < n
      /\ encode_count write (S (length items)) 0 n items = Panic).
Proof.
  intros Hw.
  pose proof (encode_count_from write n Hw items [] (S (length items))
                ltac:(lia)) as H.
  cbn [length app] in H. cbv zeta in H.
  change (Z.of_nat 0) with 0 in H. rewrite Z.sub_0_r in H. exact H.
Qed.

Lemma write_ChannelDescription_all (ds : list ChannelDescription)
  (encs : list (list byte)) :
  Forall2 (fun a bs => write_ChannelDescription a = Ok bs) ds encs ->
  encs = map bytes_ChannelDescription ds.
Proof.
  induction 1 as [|a bs ds encs Ha _ IH]; [reflexivity|].
  cbn [map]. injection Ha as <-. rewrite IH. reflexivity.
Qed.

Lemma Information_encode_all (cs : list Information)
  (encs : list (list byte)) :
  Forall2 (fun a bs => Information_encode a = Ok bs) cs encs ->
  encs = map (fun c => Key c ++ Value c) cs.
Proof.
  induction 1 as [|a bs ds encs Ha _ IH]; [reflexivity|].
  cbn [map]. injection Ha as <-. rewrite IH. reflexivity.
Qed.

Lemma PacketTable_encode_outcome (c : PacketTable) :
  let n := NumberPackets (PacketTable_Header c) in
  (Z.of_nat (length (Entry c)) < n -> PacketTable_encode c = Panic)
  /\ (n <= Z.of_nat (length (Entry c)) ->
      exists encs,
        Forall2 (fun e bs => encodeInt e = Ok bs)
          (firstn (Z.to_nat n) (Entry c)) encs
        /\ PacketTable_encode c
           = Ok (bytes_PacketTableHeader (PacketTable_Header c)
                   ++ concat encs)).
Proof.
  intros n; subst n. unfold PacketTable_encode.
  destruct (encode_count_outcome encodeInt
              (NumberPackets (PacketTable_Header c)) (Entry c)
              encodeInt_total) as [(Hle & encs & Hencs & ->)|(Hgt & ->)].
  - split; [lia|]. intros _. exists encs. split; [assumption|reflexivity].
  - split; [reflexivity|lia].
Qed.

Lemma ChannelLayout_encode_outcome (c : ChannelLayout) :
  let n := NumberChannelDescriptions c in
  (Z.of_nat (length (Channels c)) < n -> ChannelLayout_encode c = Panic)
  /\ (n <= Z.of_nat (length (Channels c)) ->
      ChannelLayout_encode c
      = Ok (be_bytes 4 (ChannelLayoutTag c)
              ++ be_bytes 4 (ChannelBitmap c) ++ be_bytes 4 n
              ++ concat (map bytes_ChannelDescription
                           (firstn (Z.to_nat n) (Channels c))))).
Proof.
  intros n; subst n. unfold ChannelLayout_encode.
  destruct (encode_count_outcome write_ChannelDescription
              (NumberChannelDescriptions c) (Channels c))
    as [(Hle & encs & Hencs & ->)|(Hgt & ->)].
  - intros a. eexists. reflexivity.
  - split; [lia|]. intros _.
    rewrite (write_ChannelDescription_all _ _ Hencs). reflexivity.
  - split; [reflexivity|lia].
Qed.

Lemma CAFStringsChunk_encode_outcome (c : CAFStringsChunk) :
  let n := NumEntries c in
  (Z.of_nat (length (Strings c)) < n -> CAFStringsChunk_encode c = Panic)
  /\ (n <= Z.of_nat (length (Strings c)) ->
      CAFStringsChunk_encode c
      = Ok (be_bytes 4 n
              ++ concat (map (fun i => Key i ++ Value i)
                           (firstn (Z.to_nat n) (Strings c))))).
Proof.
  intros n; subst n. unfold CAFStringsChunk_encode.
  destruct (encode_count_outcome Information_encode
              (NumEntries c) (Strings c))
    as [(Hle & encs & Hencs & ->)|(Hgt & ->)].
  - intros a. eexists. reflexivity.
  - split; [lia|]. intros _.
    rewrite (Information_encode_all _ _ Hencs). reflexivity.
  - split; [reflexivity|lia].
Qed.

(** X8.  The encoders of the counted payloads trust the count field, not
    the length of the slice.  A count larger than the slice makes them
    panic (index out of range); with a count of [n] at most the length,
    they write the header fields and the first [n] entries, and say nothing
    about the others ([n <= 0] writes none).  The coordinates written are
    taken to hold no signalling NaN, which [encoding/binary] would quiet. *)
Theorem counted_encoders_follow_the_count_field :
  (forall c : PacketTable,
      let n := NumberPackets (PacketTable_Header c) in
      (Z.of_nat (length (Entry c)) < n -> PacketTable_encode c = Panic)
      /\ (n <= Z.of_nat (length (Entry c)) ->
          exists encs,
            Forall2 (fun e bs => encodeInt e = Ok bs)
              (firstn (Z.to_nat n) (Entry c)) encs
            /\ PacketTable_encode c
               = Ok (bytes_PacketTableHeader (PacketTable_Header c)
                       ++ concat encs)))
  /\ (forall c : ChannelLayout,
         let n := NumberChannelDescriptions c in
         (Z.of_nat (length (Channels c)) < n ->
          ChannelLayout_encode c = Panic)
         /\ (n <= Z.of_nat (length (Channels c)) ->
             Forall quiet_coordinates (firstn (Z.to_nat n) (Channels c)) ->
             ChannelLayout_encode c
             = Ok (be_bytes 4 (ChannelLayoutTag c)
                     ++ be_bytes 4 (ChannelBitmap c) ++ be_bytes 4 n
                     ++ concat (map bytes_ChannelDescription
                                  (firstn (Z.to_nat n) (Channels c))))))
  /\ (forall c : CAFStringsChunk,
         let n := NumEntries c in
         (Z.of_nat (length (Strings c)) < n ->
          CAFStringsChunk_encode c = Panic)
         /\ (n <= Z.of_nat (length (Strings c)) ->
             CAFStringsChunk_encode c
             = Ok (be_bytes 4 n
                     ++ concat (map (fun i => Key i ++ Value i)
                                  (firstn (Z.to_nat n) (Strings c)))))).
Proof.
  split; [|split]; intros c.
  - apply PacketTable_encode_outcome.
  - destruct (ChannelLayout_encode_outcome c) as [Hp Hok].
    split; [exact Hp|]. intros Hn _. exact (Hok Hn).
  - apply CAFStringsChunk_encode_outcome.
Qed.

Lemma FourByteString_eqb_neq (a b : FourByteString) :
  a <> b -> FourByteString_eqb a b = false.
Proof.
  intros H. destruct (FourByteString_eqb a b) eqn:E; [|reflexivity].
  apply FourByteString_eqb_eq in E. contradiction.
Qed.

Lemma Chunk_Encode_outcome (c : Chunk) :
  if asserted_type (ChunkType (Header c)) (Contents c)
     && counts_fit (Contents c)
  then exists out c', Chunk_Encode c = Ok (out, c')
  else Chunk_Encode c = Panic.
Proof.
  unfold Chunk_Encode, asserted_type.
  repeat match goal with
         | |- context [if FourByteString_eqb ?a ?b then _ else _] =>
             destruct (FourByteString_eqb a b)
         end;
    destruct (Contents c) as [|cc|cc|cc|cc|cc|cc|cc|cc|cc];
    cbn [andb counts_fit bind AudioFormat_encode Data_encode];
    try reflexivity; try (eexists _, _; reflexivity).
  - destruct (ChannelLayout_encode_outcome cc) as [Hp Hok].
    destruct (Z.leb_spec (NumberChannelDescriptions cc)
                (Z.of_nat (length (Channels cc)))).
    + rewrite Hok by assumption. eexists _, _. reflexivity.
    + rewrite Hp by assumption. reflexivity.
  - destruct (CAFStringsChunk_encode_outcome cc) as [Hp Hok].
    destruct (Z.leb_spec (NumEntries cc) (Z.of_nat (length (Strings cc)))).
    + rewrite Hok by assumption. eexists _, _. reflexivity.
    + rewrite Hp by assumption. reflexivity.
  - destruct (PacketTable_encode_outcome cc) as [Hp Hok].
    destruct (Z.leb_spec (NumberPackets (PacketTable_Header cc))
                (Z.of_nat (length (Entry cc)))).
    + destruct (Hok ltac:(assumption)) as (encs & _ & ->).
      eexists _, _. reflexivity.
    + rewrite Hp by assumption. reflexivity.
Qed.


(** X10.  [Chunk.Encode] stores a pointer to its local pointer back into
    an audio-data or packet-table chunk, so a second call on the same
    chunk fails its type assertion and panics; a chunk of any other kind
    is left as it was and encodes to the same bytes again. *)
Theorem Chunk_Encode_twice (c c' : Chunk) (out : list byte) :
  Chunk_Encode c = Ok (out, c') ->
  let ty := ChunkType (Header c) in
  (ty = ChunkTypeAudioData \/ ty = ChunkTypePacketTable ->
   Chunk_Encode c' = Panic)
  /\ (ty <> ChunkTypeAudioData -> ty <> ChunkTypePacketTable ->
      c' = c /\ Chunk_Encode c' = Ok (out, c')).
Proof.
  intros H ty. subst ty. split.
  - intros [Hty|Hty]; revert H; unfold Chunk_Encode at 1; rewrite Hty;
      switch_consts; destruct (Contents c); try discriminate.
    + cbn [Data_encode bind]. intros H. injection H as _ <-.
      unfold Chunk_Encode. cbn [Header Contents ChunkType].
      rewrite Hty. switch_consts. reflexivity.
    + destruct (PacketTable_encode cc); cbn [bind]; try discriminate.
      intros H. injection H as _ <-.
      unfold Chunk_Encode. cbn [Header Contents ChunkType].
      rewrite Hty. switch_consts. reflexivity.
  - intros Hd Hp.
    pose proof (FourByteString_eqb_neq _ _ Hd) as Ed.
    pose proof (FourByteString_eqb_neq _ _ Hp) as Ep.
    assert (Hc : c' = c).
    { revert H. unfold Chunk_Encode. rewrite Ed, Ep.
      repeat match goal with
             | |- context [if FourByteString_eqb ?a ?b then _ else _] =>
                 destruct (FourByteString_eqb a b)
             end;
        destruct (Contents c); try discriminate;
        match goal with
        | |- context [bind ?m _] => destruct m; cbn [bind]; try discriminate
        | _ => idtac
        end;
        intros H; injection H as _ <-; reflexivity. }
    split; [exact Hc|]. rewrite Hc at 1. rewrite H. rewrite Hc. reflexivity.
Qed.

Lemma Chunk_Encode_twice_witness :
  let c := {| Header := {| ChunkType := ChunkTypeAudioData; ChunkSize := 5 |};
              Contents := PData {| EditCount := 0; Data_Data := [x01] |} |} in
  let c' := {| Header := {| ChunkType := ChunkTypeAudioData; ChunkSize := 5 |};
               Contents := PPData {| EditCount := 0; Data_Data := [x01] |} |} in
  Chunk_Encode c
  = Ok ([x64; x61; x74; x61; x00; x00; x00; x00; x00; x00; x00; x05;
         x00; x00; x00; x00; x01], c')
  /\ Chunk_Encode c' = Panic.
Proof.
  intros c c'.
  assert (H : Chunk_Encode c
              = Ok ([x64; x61; x74; x61; x00; x00; x00; x00; x00; x00; x00; x05;
                     x00; x00; x00; x00; x01], c')) by reflexivity.
  split; [exact H|].
  apply (proj1 (Chunk_Encode_twice c c' _ H)). left. reflexivity.
Defined.

(** ** Decoding any input and encoding the result *)

Ltac inv_bind H :=
  match type of H with
  | bind ?m _ = Ok _ =>
      let E := fresh "E" in
      destruct m as [[? ?]| | |] eqn:E; cbn [bind] in H; try discriminate H
  end.

Lemma decode_count_Ok {A : Type} (read : stream -> result (A * stream))
  (P : A -> list byte -> Prop) :
  (forall r a r', read r = Ok (a, r') -> exists bs, r = bs ++ r' /\ P a bs) ->
  forall (fuel : nat) (i n : Z) (acc : list A) (r : stream)
         (items : list A) (r' : stream),
    decode_count read fuel i n acc r = Ok (items, r') ->
    exists new encs,
      items = acc ++ new /\ Forall2 P new encs /\ r = concat encs ++ r'
      /\ Z.of_nat (length new) = Z.max 0 (n - i).
Proof.
  intros Hread. induction fuel as [|fuel IH]; intros i n acc r items r' H;
    cbn [decode_count] in H; destruct (Z.ltb_spec i n);
    try discriminate H;
    try (injection H as <- <-; exists [], []; rewrite app_nil_r;
         repeat split; [constructor|cbn [length]; lia]).
  inv_bind H.
  destruct (Hread _ _ _ E) as (bs & -> & Hbs).
  destruct (IH _ _ _ _ _ _ H) as (new & encs & -> & Hnew & -> & Hlen).
  exists (a :: new), (bs :: encs). rewrite <- app_assoc.
  split; [reflexivity|]. split; [constructor; assumption|].
  split; [cbn [concat]; rewrite <- app_assoc; reflexivity|].
  cbn [length]. lia.
Qed.

Lemma Forall2_reenc_outs {A : Type} (write : A -> result (list byte))
  (R : A -> Prop) (items : list A) (encs : list (list byte)) :
  Forall2 (reenc write R) items encs ->
  exists outs,
    Forall2 (fun a o => write a = Ok o) items outs
    /\ (length (concat outs) <= length (concat encs))%nat
    /\ (Forall R items -> concat outs = concat encs).
Proof.
  induction 1 as [|a bs items encs (out & Ha & Hl & Hr) _
                    (outs & IH & IHl & IHr)].
  - exists []. split; [constructor|]. split; [reflexivity|reflexivity].
  - exists (out :: outs). split; [constructor; assumption|].
    cbn [concat]. rewrite !length_app. split; [lia|].
    intros HR. inversion HR; subst. rewrite Hr, IHr by assumption.
    reflexivity.
Qed.

Lemma reencode_count {A : Type} (read : stream -> result (A * stream))
  (write : A -> result (list byte)) (R : A -> Prop) :
  (forall r a r', read r = Ok (a, r') ->
                  exists bs, r = bs ++ r' /\ reenc write R a bs) ->
  forall (fuel : nat) (n : Z) (r : stream) (items : list A) (r' : stream),
    decode_count read fuel 0 n [] r = Ok (items, r') ->
    exists bs out,
      r = bs ++ r'
      /\ encode_count write (S (length items)) 0 n items = Ok out
      /\ (length out <= length bs)%nat
      /\ (Forall R items -> out = bs).
Proof.
  intros Hread fuel n r items r' H.
  destruct (decode_count_Ok read (reenc write R) Hread _ _ _ _ _ _ _ H)
    as (new & encs & -> & Hnew & -> & Hlen).
  cbn [app]. rewrite Z.sub_0_r in Hlen.
  destruct (Forall2_reenc_outs write R new encs Hnew)
    as (outs & Houts & Hl & Hr).
  exists (concat encs), (concat outs). split; [reflexivity|].
  split; [|split; assumption].
  destruct (Z.le_gt_cases n 0) as [Hn|Hn].
  - assert (new = []) by (destruct new; [reflexivity|cbn [length] in Hlen; lia]).
    subst new. inversion Houts; subst.
    cbn [encode_count length]. destruct (Z.ltb_spec 0 n); [lia|reflexivity].
  - apply (encode_count_all write (fun a o => write a = Ok o)
             (fun a bs H => H) new outs Houts); lia.
Qed.

Lemma read_uint32_Ok (r : stream) (v : Z) (r' : stream) :
  read_uint32 r = Ok (v, r') ->
  exists buf, r = buf ++ r' /\ length buf = 4%nat /\ v = be_uint buf.
Proof.
  unfold read_uint32. intros H. inv_bind H. injection H as <- <-.
  apply ReadFull_Ok in E. destruct E as [-> Hl].
  exists l. repeat split. exact Hl.
Qed.

Lemma decodeInt_reenc (r : stream) (v : Z) (r' : stream) :
  decodeInt r = Ok (v, r') ->
  exists bs, r = bs ++ r' /\ reenc encodeInt (fun _ => False) v bs.
Proof.
  intros H.
  destruct (decodeInt_loop_read r 0 0 v r' ltac:(lia)
              ltac:(change (128 ^ 0) with 1; lia) H)
    as (pre & lst & -> & _ & Hpre & _ & ->).
  exists (pre ++ [lst]). split; [rewrite <- app_assoc; reflexivity|].
  pose proof (fold_accumulate_bound (pre ++ [lst]) 0 0 ltac:(lia)
                ltac:(change (128 ^ 0) with 1; lia)) as Hb.
  rewrite Z.add_0_l in Hb.
  set (v := fold_left accumulate (pre ++ [lst]) 0) in *.
  destruct (encodeInt_shape v) as (g0 & gs & Henc & _ & _ & _ & Hmin).
  exists (map flagged (rev gs) ++ [g0]). split; [exact Henc|].
  split; [|intros []].
  assert (Hu : uint64 v = v).
  { unfold uint64. apply Z.mod_small. split; [lia|].
    assert (128 ^ Z.of_nat (length (pre ++ [lst])) <= 128 ^ 9).
    { apply Z.pow_le_mono_r; [lia|]. rewrite length_app. cbn [length].
      lia. }
    change (128 ^ 9) with (2 ^ 63) in *. lia. }
  rewrite Hu in Hmin.
  specialize (Hmin (length (pre ++ [lst]))
                ltac:(rewrite length_app; cbn [length]; lia) (proj2 Hb)).
  rewrite length_app, length_map, length_rev. cbn [length] in *. lia.
Qed.

Tactic Notation "inv_bind" hyp(H) "as" ident(a) ident(r) ident(E) :=
  match type of H with
  | bind ?m _ = Ok _ =>
      destruct m as [[a r]| | |] eqn:E; cbn [bind] in H; try discriminate H
  end.

Lemma Information_decode_reenc (r : stream) (c : Information) (r' : stream) :
  Information_decode r = Ok (c, r') ->
  exists bs, r = bs ++ r' /\ reenc Information_encode (fun _ => True) c bs.
Proof.
  unfold Information_decode. intros H.
  inv_bind H as key r1 E1. inv_bind H as value r2 E2.
  injection H as <- <-.
  apply readString_Ok in E1, E2. destruct E1 as [_ ->], E2 as [_ ->].
  exists (key ++ value). split; [rewrite <- app_assoc; reflexivity|].
  exists (key ++ value). split; [reflexivity|]. split; [lia|reflexivity].
Qed.

Lemma read_ChannelDescription_reenc (r : stream) (d : ChannelDescription)
  (r' : stream) :
  read_ChannelDescription r = Ok (d, r') ->
  exists bs,
    r = bs ++ r' /\ reenc write_ChannelDescription quiet_coordinates d bs.
Proof.
  unfold read_ChannelDescription. intros H. inv_bind H as buf r1 E.
  injection H as <- <-. apply ReadFull_Ok in E. destruct E as [-> Hl].
  exists buf. split; [reflexivity|]. exists buf.
  unfold write_ChannelDescription.
  rewrite bytes_parse_ChannelDescription by exact Hl.
  split; [reflexivity|]. split; [lia|reflexivity].
Qed.

Lemma AudioFormat_decode_reencode (r : stream) (c : AudioFormat)
  (r' : stream) :
  AudioFormat_decode r = Ok (c, r') ->
  exists bs, r = bs ++ r' /\ AudioFormat_encode c = Ok bs.
Proof.
  unfold AudioFormat_decode. intros H. inv_bind H as buf r1 E.
  injection H as <- <-. apply ReadFull_Ok in E. destruct E as [-> Hl].
  exists buf. split; [reflexivity|]. unfold AudioFormat_encode.
  rewrite bytes_parse_AudioFormat by exact Hl. reflexivity.
Qed.

Lemma ChannelLayout_decode_reencode (r : stream) (c : ChannelLayout)
  (r' : stream) :
  ChannelLayout_decode zero_ChannelLayout r = Ok (c, r') ->
  exists bs out,
    r = bs ++ r' /\ ChannelLayout_encode c = Ok out
    /\ (length out <= length bs)%nat
    /\ (Forall quiet_coordinates (Channels c) -> out = bs).
Proof.
  unfold ChannelLayout_decode. intros H.
  inv_bind H as tag r1 E1. inv_bind H as bitmap r2 E2.
  inv_bind H as number r3 E3. inv_bind H as channels r4 E4.
  injection H as <- <-.
  apply read_uint32_Ok in E1, E2, E3.
  destruct E1 as (b1 & -> & Hb1 & ->), E2 as (b2 & -> & Hb2 & ->),
    E3 as (b3 & -> & Hb3 & ->).
  cbn [zero_ChannelLayout Channels] in E4.
  destruct (reencode_count _ write_ChannelDescription quiet_coordinates
              read_ChannelDescription_reenc _ _ _ _ _ E4)
    as (bs & out & -> & Henc & Hl & Hr).
  exists (b1 ++ b2 ++ b3 ++ bs),
    (b1 ++ b2 ++ b3 ++ out).
  split; [rewrite <- !app_assoc; reflexivity|].
  unfold ChannelLayout_encode.
  cbn [ChannelLayoutTag ChannelBitmap NumberChannelDescriptions Channels].
  rewrite Henc. cbn [bind].
  rewrite !be_bytes_be_uint_len by assumption.
  split; [reflexivity|]. rewrite !length_app.
  split; [lia|]. intros HR. rewrite Hr by assumption. reflexivity.
Qed.

Lemma CAFStringsChunk_decode_reencode (r : stream) (c : CAFStringsChunk)
  (r' : stream) :
  CAFStringsChunk_decode zero_CAFStringsChunk r = Ok (c, r') ->
  exists bs, r = bs ++ r' /\ CAFStringsChunk_encode c = Ok bs.
Proof.
  unfold CAFStringsChunk_decode. intros H.
  inv_bind H as number r1 E1. inv_bind H as strings r2 E2.
  injection H as <- <-.
  apply read_uint32_Ok in E1. destruct E1 as (b1 & -> & Hb1 & ->).
  cbn [zero_CAFStringsChunk Strings] in E2.
  destruct (reencode_count _ Information_encode (fun _ => True)
              Information_decode_reenc _ _ _ _ _ E2)
    as (bs & out & -> & Henc & Hl & Hr).
  exists (b1 ++ bs). split; [rewrite <- !app_assoc; reflexivity|].
  unfold CAFStringsChunk_encode. cbn [NumEntries Strings].
  rewrite Henc. cbn [bind].
  rewrite be_bytes_be_uint_len by assumption.
  rewrite Hr; [reflexivity|].
  apply Forall_forall. intros; exact I.
Qed.

Lemma PacketTable_decode_reencode (r : stream) (c : PacketTable)
  (r' : stream) :
  PacketTable_decode zero_PacketTable r = Ok (c, r') ->
  exists bs out,
    r = bs ++ r' /\ PacketTable_encode c = Ok out
    /\ (length out <= length bs)%nat.
Proof.
  unfold PacketTable_decode. intros H.
  inv_bind H as buf r1 E1. inv_bind H as entry r2 E2.
  injection H as <- <-.
  apply ReadFull_Ok in E1. destruct E1 as [-> Hbuf].
  cbn [zero_PacketTable Entry] in E2.
  destruct (reencode_count _ encodeInt (fun _ => False)
              decodeInt_reenc _ _ _ _ _ E2)
    as (bs & out & -> & Henc & Hl & _).
  exists (buf ++ bs), (buf ++ out).
  split; [rewrite <- !app_assoc; reflexivity|].
  unfold PacketTable_encode. cbn [PacketTable_Header Entry].
  rewrite Henc. cbn [bind].
  rewrite bytes_parse_PacketTableHeader by exact Hbuf.
  split; [reflexivity|]. rewrite !length_app. lia.
Qed.

Lemma Data_decode_reencode (r : stream) (h : ChunkHeader) (c : Data)
  (r' : stream) :
  Data_decode r h = Ok (c, r') ->
  exists bs, r = bs ++ r' /\ Data_encode c = Ok bs.
Proof.
  unfold Data_decode. intros H. inv_bind H as ec r1 E1.
  apply read_uint32_Ok in E1. destruct E1 as (b1 & -> & Hb1 & ->).
  unfold Data_encode.
  destruct (ChunkSize h =? -1).
  - injection H as <- <-. exists (b1 ++ r1).
    split; [rewrite app_nil_r; reflexivity|].
    cbn [EditCount Data_Data]. rewrite be_bytes_be_uint_len by assumption.
    reflexivity.
  - pose proof (LimitReader_ReadAll_split r1 (int64 (ChunkSize h - 4))) as Hs.
    destruct (LimitReader_ReadAll r1 (int64 (ChunkSize h - 4))) as [data r2].
    cbn [fst snd] in Hs. injection H as <- <-. exists (b1 ++ data).
    split; [rewrite <- app_assoc, <- Hs; reflexivity|].
    cbn [EditCount Data_Data]. rewrite be_bytes_be_uint_len by assumption.
    reflexivity.
Qed.

Lemma read_blob_Ok (n : Z) (r ba r' : list byte) :
  read_blob n r = Ok (ba, r') -> r = ba ++ r'.
Proof.
  unfold read_blob. destruct (n <? 0); [discriminate|].
  intros H. apply ReadFull_Ok in H. exact (proj1 H).
Qed.

(** What [Chunk.Encode] makes of a chunk that [Chunk.decode] returned. *)
Lemma Chunk_decode_reencode (r : stream) (c : Chunk) (rest : stream) :
  Chunk_decode r = Ok (c, rest) ->
  exists bs out c',
    r = bs ++ rest /\ Chunk_Encode c = Ok (out, c')
    /\ (12 <= length bs)%nat
    /\ (length out <= length bs)%nat
    /\ (kept_verbatim c -> out = bs).
Proof.
  unfold Chunk_decode. intros H. inv_bind H as hdr r1 E.
  apply ReadFull_Ok in E. destruct E as [-> Hhdr].
  change (Z.to_nat 12) with 12%nat in Hhdr.
  pose proof (bytes_parse_ChunkHeader hdr Hhdr) as Hh.
  set (h := parse_ChunkHeader hdr) in *.
  unfold Chunk_decode_switch in H. unfold Chunk_Encode, kept_verbatim.
  destruct (FourByteString_eqb (ChunkType h) ChunkTypeAudioDescription) eqn:T1;
  [|destruct (FourByteString_eqb (ChunkType h) ChunkTypeChannelLayout) eqn:T2;
  [|destruct (FourByteString_eqb (ChunkType h) ChunkTypeInformation) eqn:T3;
  [|destruct (FourByteString_eqb (ChunkType h) ChunkTypeAudioData) eqn:T4;
  [|destruct (FourByteString_eqb (ChunkType h) ChunkTypePacketTable) eqn:T5;
  [|destruct (FourByteString_eqb (ChunkType h) ChunkTypeMidi) eqn:T6]]]]];
    inv_bind H as cc r2 E; injection H as <- <-;
    cbn [Header Contents];
    rewrite ?T1, ?T2, ?T3, ?T4, ?T5, ?T6, Hh.
  - apply AudioFormat_decode_reencode in E. destruct E as (bs & -> & ->).
    cbn [bind]. exists (hdr ++ bs), (hdr ++ bs). eexists.
    split; [rewrite <- app_assoc; reflexivity|]. split; [reflexivity|].
    rewrite length_app. split; [lia|]. split; [lia|reflexivity].
  - apply ChannelLayout_decode_reencode in E.
    destruct E as (bs & out & -> & -> & Hl & Hr).
    cbn [bind]. exists (hdr ++ bs), (hdr ++ out). eexists.
    split; [rewrite <- app_assoc; reflexivity|]. split; [reflexivity|].
    rewrite !length_app. split; [lia|]. split; [lia|].
    intros HR. rewrite Hr by assumption. reflexivity.
  - apply CAFStringsChunk_decode_reencode in E. destruct E as (bs & -> & ->).
    cbn [bind]. exists (hdr ++ bs), (hdr ++ bs). eexists.
    split; [rewrite <- app_assoc; reflexivity|]. split; [reflexivity|].
    rewrite length_app. split; [lia|]. split; [lia|reflexivity].
  - apply Data_decode_reencode in E. destruct E as (bs & -> & ->).
    cbn [bind]. exists (hdr ++ bs), (hdr ++ bs). eexists.
    split; [rewrite <- app_assoc; reflexivity|]. split; [reflexivity|].
    rewrite length_app. split; [lia|]. split; [lia|reflexivity].
  - apply PacketTable_decode_reencode in E.
    destruct E as (bs & out & -> & -> & Hl).
    cbn [bind]. exists (hdr ++ bs), (hdr ++ out). eexists.
    split; [rewrite <- app_assoc; reflexivity|]. split; [reflexivity|].
    rewrite !length_app. split; [lia|]. split; [lia|intros []].
  - apply read_blob_Ok in E. subst r1.
    exists (hdr ++ cc), (hdr ++ cc). eexists.
    split; [rewrite <- app_assoc; reflexivity|]. split; [reflexivity|].
    rewrite length_app. split; [lia|]. split; [lia|reflexivity].
  - apply read_blob_Ok in E. subst r1.
    exists (hdr ++ cc), (hdr ++ cc). eexists.
    split; [rewrite <- app_assoc; reflexivity|]. split; [reflexivity|].
    rewrite length_app. split; [lia|]. split; [lia|reflexivity].
Qed.

Lemma File_Decode_loop_reencode (fuel : nat) :
  forall (acc : list Chunk) (r : stream) (cs' : list Chunk),
    File_Decode_loop fuel acc r = Ok cs' ->
    exists cs bs out dropped,
      cs' = acc ++ cs /\ r = bs ++ dropped
      /\ Chunk_decode dropped = Err EOF
      /\ File_Encode_chunks cs = Ok out
      /\ (length out <= length bs)%nat
      /\ (Forall kept_verbatim cs -> out = bs).
Proof.
  induction fuel as [|fuel IH]; intros acc r cs' H; [discriminate|].
  cbn [File_Decode_loop] in H.
  destruct (Chunk_decode r) as [[c r1]|e| |] eqn:E; try discriminate.
  - destruct (Chunk_decode_reencode _ _ _ E)
      as (bs & out & c' & -> & Henc & _ & Hl & Hr).
    destruct (IH _ _ _ H)
      as (cs & bs2 & out2 & dropped & -> & -> & Hd & Henc2 & Hl2 & Hr2).
    exists (c :: cs), (bs ++ bs2), (out ++ out2), dropped.
    rewrite <- !app_assoc. split; [reflexivity|]. split; [reflexivity|].
    split; [assumption|]. cbn [File_Encode_chunks].
    rewrite Henc, Henc2. cbn [bind]. split; [reflexivity|].
    rewrite !length_app. split; [lia|].
    intros HR. inversion HR; subst.
    rewrite Hr, Hr2 by assumption. reflexivity.
  - destruct e; try discriminate. injection H as <-.
    exists [], [], [], r. rewrite app_nil_r.
    repeat split; try reflexivity. exact E.
Qed.

Lemma File_Decode_reencode (B : list byte) (f : File) :
  File_Decode zero_File B = Ok f ->
  exists out dropped kept,
    File_Encode f = Ok out /\ B = kept ++ dropped
    /\ Chunk_decode dropped = Err EOF
    /\ (length out <= length kept)%nat
    /\ (Forall kept_verbatim (Chunks f) -> out = kept).
Proof.
  unfold File_Decode, FileHeader_Decode. intros H.
  inv_bind H as h r1 E. inv_bind E as buf r2 E2.
  apply ReadFull_Ok in E2. destruct E2 as [-> Hbuf].
  cbv zeta in E.
  destruct (negb (FourByteString_eqb (FileType (parse_FileHeader buf)) caff));
    [discriminate|].
  injection E as <- <-.
  destruct (File_Decode_loop (S (length r2)) (Chunks zero_File) r2)
    as [cs'| | |] eqn:El; cbn [bind] in H; try discriminate.
  injection H as <-.
  destruct (File_Decode_loop_reencode _ _ _ _ El)
    as (cs & bs & out & dropped & -> & -> & Hd & Henc & Hl & Hr).
  cbn [zero_File Chunks app] in *.
  exists (buf ++ out), dropped, (buf ++ bs).
  unfold File_Encode, FileHeader_Encode. cbn [File_FileHeader Chunks bind].
  rewrite Henc. cbn [bind].
  rewrite bytes_parse_FileHeader by exact Hbuf.
  split; [reflexivity|]. split; [rewrite <- app_assoc; reflexivity|].
  split; [assumption|]. rewrite !length_app. split; [lia|].
  intros HR. rewrite Hr by assumption. reflexivity.
Qed.

(** X11.  Whatever the input, a file that [File.Decode] returned is
    encoded by [File.Encode] without a panic, and in no more bytes than
    were read: every decoded chunk has contents of the type its tag
    announces and as many entries as its count field says. *)
Theorem File_Encode_accepts_every_decoded_file (B : list byte) (f : File) :
  File_Decode zero_File B = Ok f ->
  exists out, File_Encode f = Ok out /\ (length out <= length B)%nat.
Proof.
  intros H.
  destruct (File_Decode_reencode B f H)
    as (out & dropped & kept & Henc & -> & _ & Hl & _).
  exists out. split; [assumption|]. rewrite length_app. lia.
Qed.

Lemma File_Encode_accepts_every_decoded_file_witness :
  exists out,
    File_Encode
      {| File_FileHeader :=
           {| FileType := caff; FileVersion := 1; FileFlags := 0 |};
         Chunks :=
           [{| Header := {| ChunkType := ChunkTypePacketTable;
                            ChunkSize := 26 |};
               Contents :=
                 PPacketTable
                   {| PacketTable_Header :=
                        {| NumberPackets := 1; NumberValidFrames := 2048;
                           PrimingFramess := 0; RemainderFrames := 0 |};
                      Entry := [5] |} |}] |}
    = Ok out
    /\ (length out
        <= length [x63; x61; x66; x66; x00; x01; x00; x00;
                   x70; x61; x6b; x74; x00; x00; x00; x00; x00; x00; x00; x1a;
                   x00; x00; x00; x00; x00; x00; x00; x01;
                   x00; x00; x00; x00; x00; x00; x08; x00;
                   x00; x00; x00; x00; x00; x00; x00; x00;
                   x80; x05])%nat.
Proof.
  apply File_Encode_accepts_every_decoded_file. vm_compute. reflexivity.
Defined.



(** ** Encoding a value built by hand and decoding the result *)

Lemma signed_mod (w v : Z) :
  0 < w -> - 2 ^ (w - 1) <= v < 2 ^ (w - 1) -> signed w (v mod 2 ^ w) = v.
Proof.
  intros Hw Hv. unfold signed.
  assert (E : 2 ^ w = 2 * 2 ^ (w - 1)).
  { rewrite <- Z.pow_succ_r by lia. f_equal. lia. }
  assert (Hp : 0 < 2 ^ (w - 1)) by (apply Z.pow_pos_nonneg; lia).
  rewrite E. set (h := 2 ^ (w - 1)) in *.
  destruct (Z.ltb_spec v 0).
  - assert (Em : v mod (2 * h) = v + 2 * h).
    { replace v with ((v + 2 * h) + (-1) * (2 * h)) at 1 by lia.
      rewrite Z.mod_add, Z.mod_small by lia. reflexivity. }
    rewrite Em. destruct (Z.ltb_spec (v + 2 * h) h); lia.
  - rewrite Z.mod_small by lia. destruct (Z.ltb_spec v h); lia.
Qed.





















(** ** The size field of a chunk *)

(** X14.  An audio-data chunk whose size field is below the four bytes of
    the edit count does not fail: with a size from [-2^63 + 4] to [4],
    other than [-1], the blob decoded is empty and the bytes after the
    edit count are left for the next chunk; with a size below [-2^63 + 4]
    the subtraction of four wraps around to a large positive limit, and
    the blob runs to the end of the input as it does for [-1]. *)
Theorem data_chunk_size_below_edit_count (hdr ec r : list byte) :
  length hdr = 12%nat -> length ec = 4%nat ->
  ChunkType (parse_ChunkHeader hdr) = ChunkTypeAudioData ->
  let S := ChunkSize (parse_ChunkHeader hdr) in
  let chunk blob :=
    {| Header := parse_ChunkHeader hdr;
       Contents := PData {| EditCount := be_uint ec; Data_Data := blob |} |} in
  (S <> -1 -> - 2 ^ 63 + 4 <= S <= 4 ->
   Chunk_decode (hdr ++ ec ++ r) = Ok (chunk [], r))
  /\ (S < - 2 ^ 63 + 4 -> Z.of_nat (length r) <= S - 4 + 2 ^ 64 ->
      Chunk_decode (hdr ++ ec ++ r) = Ok (chunk r, [])).
Proof.
  intros Hhdr Hec Hty S chunk.
  assert (Hsw : Chunk_decode (hdr ++ ec ++ r)
                = ('(cc, r') <- Data_decode (ec ++ r) (parse_ChunkHeader hdr) ;;
                   Ok ({| Header := parse_ChunkHeader hdr;
                          Contents := PData cc |}, r'))).
  { unfold Chunk_decode. rewrite ReadFull_app by lia. cbn [bind].
    unfold Chunk_decode_switch. rewrite Hty. switch_consts. reflexivity. }
  pose proof (ChunkSize_parse_range hdr) as Hrange. fold S in Hrange.
  rewrite Hsw. unfold Data_decode. rewrite read_uint32_app by assumption.
  cbn [bind]. fold S. unfold int64, LimitReader_ReadAll.
  split.
  - intros Hne HS. destruct (Z.eqb_spec S (-1)); [contradiction|].
    rewrite signed_mod by (try change (64 - 1) with 63; lia).
    destruct (Z.leb_spec (S - 4) 0); [reflexivity|lia].
  - intros HS Hr. destruct (Z.eqb_spec S (-1)); [lia|].
    assert (Em : (S - 4) mod 2 ^ 64 = S - 4 + 2 ^ 64).
    { replace (S - 4) with ((S - 4 + 2 ^ 64) + (-1) * 2 ^ 64) at 1 by lia.
      rewrite Z.mod_add, Z.mod_small by lia. reflexivity. }
    rewrite Em. unfold signed. change (64 - 1) with 63.
    destruct (Z.ltb_spec (S - 4 + 2 ^ 64) (2 ^ 63)); [|lia].
    destruct (Z.leb_spec (S - 4 + 2 ^ 64) 0); [lia|].
    destruct (Z.leb_spec (Z.of_nat (length r)) (S - 4 + 2 ^ 64)); [|lia].
    reflexivity.
Qed.

Lemma data_chunk_size_below_edit_count_witness :
  Chunk_decode
    ([x64; x61; x74; x61; x00; x00; x00; x00; x00; x00; x00; x00]
       ++ [x00; x00; x00; x01] ++ [xaa; xbb])
  = Ok ({| Header := {| ChunkType := ChunkTypeAudioData; ChunkSize := 0 |};
           Contents := PData {| EditCount := 1; Data_Data := [] |} |},
        [xaa; xbb])
  /\ Chunk_decode
       ([x64; x61; x74; x61; x80; x00; x00; x00; x00; x00; x00; x01]
          ++ [x00; x00; x00; x01] ++ [xaa; xbb])
     = Ok ({| Header := {| ChunkType := ChunkTypeAudioData;
                           ChunkSize := - 2 ^ 63 + 1 |};
              Contents := PData {| EditCount := 1;
                                   Data_Data := [xaa; xbb] |} |}, []).
Proof.
  split.
  - pose proof (data_chunk_size_below_edit_count
                  [x64; x61; x74; x61; x00; x00; x00; x00; x00; x00; x00; x00]
                  [x00; x00; x00; x01] [xaa; xbb]
                  eq_refl eq_refl eq_refl) as H.
    cbv zeta in H.
    change (ChunkSize (parse_ChunkHeader _)) with 0 in H.
    apply (proj1 H); lia.
  - pose proof (data_chunk_size_below_edit_count
                  [x64; x61; x74; x61; x80; x00; x00; x00; x00; x00; x00; x01]
                  [x00; x00; x00; x01] [xaa; xbb]
                  eq_refl eq_refl eq_refl) as H.
    cbv zeta in H.
    change (ChunkSize (parse_ChunkHeader _)) with (- 2 ^ 63 + 1) in H.
    apply (proj2 H); cbn; lia.
Defined.

(** X15.  The size field of a chunk is carried along, neither checked nor
    computed.  [Chunk.decode] of an audio description, a channel layout,
    an information chunk or a packet table reads the same contents and
    stops at the same place whatever the size field says; and
    [Chunk.Encode] writes the size field it finds in the header, followed
    by a payload that depends on the contents only. *)
Theorem chunk_size_is_carried_not_checked :
  (forall (ty : FourByteString) (sz1 sz2 r : list byte),
      length sz1 = 8%nat -> length sz2 = 8%nat ->
      ty = ChunkTypeAudioDescription \/ ty = ChunkTypeChannelLayout
      \/ ty = ChunkTypeInformation \/ ty = ChunkTypePacketTable ->
      Chunk_decode (FourByteString_bytes ty ++ sz2 ++ r)
      = ('(c, r') <- Chunk_decode (FourByteString_bytes ty ++ sz1 ++ r) ;;
         Ok ({| Header := {| ChunkType := ty;
                             ChunkSize := signed 64 (be_uint sz2) |};
                Contents := Contents c |}, r')))
  /\ (forall (c1 c2 : Chunk),
         ChunkType (Header c1) = ChunkType (Header c2) ->
         Contents c1 = Contents c2 ->
         match Chunk_Encode c1 with
         | Ok (out, _) =>
             exists p c2',
               out = bytes_ChunkHeader (Header c1) ++ p
               /\ Chunk_Encode c2
                  = Ok (bytes_ChunkHeader (Header c2) ++ p, c2')
         | Err _ => False
         | Panic => Chunk_Encode c2 = Panic
         | OutOfFuel => False
         end).
Proof.
  split.
  - intros ty sz1 sz2 r H1 H2 Hty.
    rewrite !Chunk_decode_header by assumption.
    unfold Chunk_decode_switch. cbn [ChunkType].
    destruct Hty as [-> | [-> | [-> | ->]]]; switch_consts.
    + destruct (AudioFormat_decode r) as [[cc r']| | |]; reflexivity.
    + destruct (ChannelLayout_decode zero_ChannelLayout r) as [[cc r']| | |];
        reflexivity.
    + destruct (CAFStringsChunk_decode zero_CAFStringsChunk r)
        as [[cc r']| | |]; reflexivity.
    + destruct (PacketTable_decode zero_PacketTable r) as [[cc r']| | |];
        reflexivity.
  - intros [h1 k1] [h2 k2]. cbn [Header Contents]. intros Hty <-.
    pose proof (Chunk_Encode_outcome {| Header := h1; Contents := k1 |}) as O1.
    unfold Chunk_Encode in *. cbn [Header Contents] in *. rewrite <- Hty.
    repeat match goal with
           | |- context [if FourByteString_eqb ?a ?b then _ else _] =>
               destruct (FourByteString_eqb a b)
           end;
      destruct k1; try reflexivity;
      cbn [AudioFormat_encode Data_encode bind];
      try (eexists _, _; split; reflexivity);
      match goal with
      | |- context [bind ?m _] =>
          destruct m; cbn [bind] in *;
          try reflexivity; try (eexists _, _; split; reflexivity)
      end;
      destruct (asserted_type _ _ && counts_fit _);
      try discriminate O1; destruct O1 as (? & ? & O1); discriminate O1.
Qed.

(** ** Decoding what was encoded from a decoded file *)

Lemma decode_count_encs {A : Type} (read : stream -> result (A * stream))
  (enc : A -> list byte -> Prop) :
  (forall r a r', read r = Ok (a, r') -> exists out, enc a out) ->
  forall (fuel : nat) (i n : Z) (acc : list A) (r : stream)
         (items : list A) (r' : stream),
    decode_count read fuel i n acc r = Ok (items, r') ->
    exists new outs,
      items = acc ++ new /\ Forall2 enc new outs
      /\ Z.of_nat (length new) = Z.max 0 (n - i).
Proof.
  intros Hread. induction fuel as [|fuel IH]; intros i n acc r items r' H;
    cbn [decode_count] in H; destruct (Z.ltb_spec i n);
    try discriminate H;
    try (injection H as <- <-; exists [], []; rewrite app_nil_r;
         repeat split; [constructor|cbn [length]; lia]).
  inv_bind H as a r1 E.
  destruct (Hread _ _ _ E) as (out & Hout).
  destruct (IH _ _ _ _ _ _ H) as (new & outs & -> & Hnew & Hlen).
  exists (a :: new), (out :: outs). rewrite <- app_assoc.
  split; [reflexivity|]. split; [constructor; assumption|].
  cbn [length]. lia.
Qed.

(** A counted list read from any input is written by the counted encoder
    and read back from what was written. *)
Lemma count_round {A : Type} (read : stream -> result (A * stream))
  (write : A -> result (list byte)) (enc : A -> list byte -> Prop) :
  (forall a bs rest, enc a bs -> read (bs ++ rest) = Ok (a, rest)) ->
  (forall a bs, enc a bs -> bs <> []) ->
  (forall a bs, enc a bs -> write a = Ok bs) ->
  (forall r a r', read r = Ok (a, r') -> exists out, enc a out) ->
  forall (fuel : nat) (n : Z) (r : stream) (items : list A) (r' : stream),
    decode_count read fuel 0 n [] r = Ok (items, r') ->
    exists out,
      encode_count write (S (length items)) 0 n items = Ok out
      /\ forall rest,
           decode_count read (S (length (out ++ rest))) 0 n [] (out ++ rest)
           = Ok (items, rest).
Proof.
  intros read_enc enc_nonempty write_enc Hread fuel n r items r' H.
  destruct (decode_count_encs read enc Hread _ _ _ _ _ _ _ H)
    as (new & outs & -> & Houts & Hlen).
  cbn [app]. rewrite Z.sub_0_r in Hlen. exists (concat outs).
  destruct (Z.le_gt_cases n 0) as [Hn|Hn].
  - assert (new = []) by (destruct new; [reflexivity|cbn [length] in Hlen; lia]).
    subst new. inversion Houts; subst. cbn [concat app length].
    split.
    + cbn [encode_count]. destruct (Z.ltb_spec 0 n); [lia|reflexivity].
    + intros rest. cbn [decode_count].
      destruct (Z.ltb_spec 0 n); [lia|reflexivity].
  - split.
    + apply (encode_count_all write enc write_enc new outs Houts); lia.
    + intros rest.
      apply (decode_count_items read enc read_enc enc_nonempty new outs
               Houts _ 0 n [] rest); lia.
Qed.

Lemma read_ChannelDescription_enc (r : stream) (d : ChannelDescription)
  (r' : stream) :
  read_ChannelDescription r = Ok (d, r') -> exists out, channel_enc d out.
Proof.
  unfold read_ChannelDescription. intros H. inv_bind H as buf r1 E.
  injection H as <- <-. apply ReadFull_Ok in E. destruct E as [_ Hl].
  exists buf. split; [exact Hl|reflexivity].
Qed.

Lemma Information_decode_enc (r : stream) (c : Information) (r' : stream) :
  Information_decode r = Ok (c, r') -> exists out, info_enc c out.
Proof.
  unfold Information_decode. intros H.
  inv_bind H as key r1 E1. inv_bind H as value r2 E2.
  injection H as <- <-.
  apply readString_Ok in E1, E2. destruct E1 as [Hk _], E2 as [Hv _].
  exists (key ++ value). repeat split; assumption.
Qed.

Lemma decodeInt_enc (r : stream) (v : Z) (r' : stream) :
  decodeInt r = Ok (v, r') -> exists out, packet_enc v out.
Proof.
  intros H.
  destruct (decodeInt_loop_read r 0 0 v r' ltac:(lia)
              ltac:(change (128 ^ 0) with 1; lia) H)
    as (pre & lst & _ & _ & Hpre & _ & ->).
  pose proof (fold_accumulate_bound (pre ++ [lst]) 0 0 ltac:(lia)
                ltac:(change (128 ^ 0) with 1; lia)) as Hb.
  rewrite Z.add_0_l in Hb.
  destruct (encodeInt_total (fold_left accumulate (pre ++ [lst]) 0))
    as (out & Hout).
  exists out. split; [|exact Hout].
  assert (128 ^ Z.of_nat (length (pre ++ [lst])) <= 128 ^ 8).
  { apply Z.pow_le_mono_r; [lia|]. rewrite length_app. cbn [length]. lia. }
  change (128 ^ 8) with (2 ^ 56) in *. lia.
Qed.

Lemma ChannelLayout_decode_round (r : stream) (c : ChannelLayout)
  (r' : stream) :
  ChannelLayout_decode zero_ChannelLayout r = Ok (c, r') ->
  exists out,
    ChannelLayout_encode c = Ok out
    /\ forall rest,
         ChannelLayout_decode zero_ChannelLayout (out ++ rest) = Ok (c, rest).
Proof.
  unfold ChannelLayout_decode at 1. intros H.
  inv_bind H as tag r1 E1. inv_bind H as bitmap r2 E2.
  inv_bind H as number r3 E3. inv_bind H as channels r4 E4.
  injection H as <- <-.
  apply read_uint32_Ok in E1, E2, E3.
  destruct E1 as (b1 & _ & Hb1 & ->), E2 as (b2 & _ & Hb2 & ->),
    E3 as (b3 & _ & Hb3 & ->).
  cbn [zero_ChannelLayout Channels] in E4.
  destruct (count_round read_ChannelDescription write_ChannelDescription
              channel_enc channel_enc_read channel_enc_nonempty
              channel_enc_write read_ChannelDescription_enc _ _ _ _ _ E4)
    as (out & Henc & Hdec).
  unfold ChannelLayout_encode.
  cbn [ChannelLayoutTag ChannelBitmap NumberChannelDescriptions Channels].
  rewrite Henc. cbn [bind]. rewrite !be_bytes_be_uint_len by assumption.
  eexists. split; [reflexivity|]. intros rest.
  unfold ChannelLayout_decode. rewrite <- !app_assoc.
  do 3 (rewrite read_uint32_app by assumption; cbn [bind]).
  cbn [zero_ChannelLayout Channels]. rewrite Hdec. reflexivity.
Qed.

Lemma CAFStringsChunk_decode_round (r : stream) (c : CAFStringsChunk)
  (r' : stream) :
  CAFStringsChunk_decode zero_CAFStringsChunk r = Ok (c, r') ->
  exists out,
    CAFStringsChunk_encode c = Ok out
    /\ forall rest,
         CAFStringsChunk_decode zero_CAFStringsChunk (out ++ rest)
         = Ok (c, rest).
Proof.
  unfold CAFStringsChunk_decode at 1. intros H.
  inv_bind H as number r1 E1. inv_bind H as strings r2 E2.
  injection H as <- <-.
  apply read_uint32_Ok in E1. destruct E1 as (b1 & _ & Hb1 & ->).
  cbn [zero_CAFStringsChunk Strings] in E2.
  destruct (count_round Information_decode Information_encode
              info_enc info_enc_read info_enc_nonempty
              info_enc_write Information_decode_enc _ _ _ _ _ E2)
    as (out & Henc & Hdec).
  unfold CAFStringsChunk_encode. cbn [NumEntries Strings].
  rewrite Henc. cbn [bind]. rewrite be_bytes_be_uint_len by assumption.
  eexists. split; [reflexivity|]. intros rest.
  unfold CAFStringsChunk_decode. rewrite <- !app_assoc.
  rewrite read_uint32_app by assumption. cbn [bind].
  cbn [zero_CAFStringsChunk Strings]. rewrite Hdec. reflexivity.
Qed.

Lemma PacketTable_decode_round (r : stream) (c : PacketTable)
  (r' : stream) :
  PacketTable_decode zero_PacketTable r = Ok (c, r') ->
  exists out,
    PacketTable_encode c = Ok out
    /\ forall rest,
         PacketTable_decode zero_PacketTable (out ++ rest) = Ok (c, rest).
Proof.
  unfold PacketTable_decode at 1. intros H.
  inv_bind H as buf r1 E1. inv_bind H as entry r2 E2.
  injection H as <- <-.
  apply ReadFull_Ok in E1. destruct E1 as [_ Hbuf].
  cbn [zero_PacketTable Entry] in E2.
  destruct (count_round decodeInt encodeInt packet_enc packet_enc_read
              packet_enc_nonempty packet_enc_write decodeInt_enc
              _ _ _ _ _ E2)
    as (out & Henc & Hdec).
  unfold PacketTable_encode. cbn [PacketTable_Header Entry].
  rewrite Henc. cbn [bind].
  rewrite bytes_parse_PacketTableHeader by exact Hbuf.
  eexists. split; [reflexivity|]. intros rest.
  unfold PacketTable_decode. rewrite <- !app_assoc.
  rewrite ReadFull_app by (rewrite Hbuf; reflexivity). cbn [bind].
  cbn [zero_PacketTable Entry]. rewrite Hdec. reflexivity.
Qed.

Lemma Data_decode_eq (b1 r1 : list byte) (h : ChunkHeader) :
  length b1 = 4%nat ->
  Data_decode (b1 ++ r1) h
  = if ChunkSize h =? -1
    then Ok ({| EditCount := be_uint b1; Data_Data := r1 |}, [])
    else
      let '(data, r) := LimitReader_ReadAll r1 (int64 (ChunkSize h - 4)) in
      Ok ({| EditCount := be_uint b1; Data_Data := data |}, r).
Proof.
  intros Hb1. unfold Data_decode. rewrite read_uint32_app by assumption.
  reflexivity.
Qed.

Lemma Data_decode_round (r : stream) (h : ChunkHeader) (c : Data)
  (r' : stream) :
  Data_decode r h = Ok (c, r') ->
  exists out,
    Data_encode c = Ok out
    /\ Data_decode out h = Ok (c, [])
    /\ (r' <> [] -> forall rest, Data_decode (out ++ rest) h = Ok (c, rest)).
Proof.
  intros H.
  assert (Hr : exists b1 r1, r = b1 ++ r1 /\ length b1 = 4%nat).
  { unfold Data_decode in H. inv_bind H as ec r1 E1.
    apply read_uint32_Ok in E1. destruct E1 as (b1 & -> & Hb1 & _).
    exists b1, r1. split; [reflexivity|assumption]. }
  destruct Hr as (b1 & r1 & -> & Hb1).
  rewrite Data_decode_eq in H by assumption.
  unfold Data_encode.
  destruct (ChunkSize h =? -1) eqn:Es.
  - injection H as <- <-. cbn [EditCount Data_Data].
    rewrite be_bytes_be_uint_len by assumption.
    eexists. split; [reflexivity|].
    rewrite Data_decode_eq, Es by assumption.
    split; [reflexivity|]. intros Hne. congruence.
  - unfold LimitReader_ReadAll in H.
    set (n := int64 (ChunkSize h - 4)) in *.
    destruct (Z.leb_spec n 0) as [Hn|Hn].
    + injection H as <- <-. cbn [EditCount Data_Data].
      rewrite be_bytes_be_uint_len by assumption.
      eexists. split; [reflexivity|].
      assert (Hrest : forall rest,
                 Data_decode ((b1 ++ []) ++ rest) h
                 = Ok ({| EditCount := be_uint b1; Data_Data := [] |}, rest)).
      { intros rest. rewrite app_nil_r, Data_decode_eq, Es by assumption.
        fold n. unfold LimitReader_ReadAll.
        destruct (Z.leb_spec n 0); [reflexivity|lia]. }
      split.
      * specialize (Hrest []). rewrite app_nil_r in Hrest. exact Hrest.
      * intros _ rest. apply Hrest.
    + destruct (Z.leb_spec (Z.of_nat (length r1)) n) as [Hl|Hl].
      * injection H as <- <-. cbn [EditCount Data_Data].
        rewrite be_bytes_be_uint_len by assumption.
        eexists. split; [reflexivity|].
        rewrite Data_decode_eq, Es by assumption.
        fold n. unfold LimitReader_ReadAll.
        destruct (Z.leb_spec n 0); [lia|].
        destruct (Z.leb_spec (Z.of_nat (length r1)) n); [|lia].
        split; [reflexivity|]. intros Hne. congruence.
      * injection H as <- <-. cbn [EditCount Data_Data].
        rewrite be_bytes_be_uint_len by assumption.
        assert (Hlen : Z.of_nat (length (firstn (Z.to_nat n) r1)) = n)
          by (rewrite firstn_length_le; lia).
        set (data := firstn (Z.to_nat n) r1) in *.
        eexists. split; [reflexivity|].
        assert (Hrest : forall rest,
                   Data_decode ((b1 ++ data) ++ rest) h
                   = Ok ({| EditCount := be_uint b1; Data_Data := data |},
                         rest)).
        { intros rest.
          rewrite <- app_assoc, Data_decode_eq, Es by assumption.
          fold n. rewrite <- Hlen, LimitReader_ReadAll_app. reflexivity. }
        split.
        -- specialize (Hrest []). rewrite app_nil_r in Hrest. exact Hrest.
        -- intros _ rest. apply Hrest.
Qed.

Lemma read_blob_Ok_length (n : Z) (r ba r' : list byte) :
  read_blob n r = Ok (ba, r') -> n = Z.of_nat (length ba).
Proof.
  unfold read_blob. destruct (Z.ltb_spec n 0) as [Hn|Hn]; [discriminate|].
  intros H. apply ReadFull_Ok in H. destruct H as [_ Hl]. lia.
Qed.

Lemma AudioFormat_decode_round (r : stream) (c : AudioFormat) (r' : stream) :
  AudioFormat_decode r = Ok (c, r') ->
  exists out,
    AudioFormat_encode c = Ok out
    /\ forall rest, AudioFormat_decode (out ++ rest) = Ok (c, rest).
Proof.
  unfold AudioFormat_decode at 1. intros H. inv_bind H as buf r1 E.
  injection H as <- <-. apply ReadFull_Ok in E. destruct E as [_ Hl].
  change (Z.to_nat 32) with 32%nat in Hl.
  exists buf. split; [exact (proj2 (AudioFormat_valid buf [] Hl))|].
  intros rest. exact (proj1 (AudioFormat_valid buf rest Hl)).
Qed.

Lemma stable_final {A : Type} (D : list byte -> result (A * stream))
  (out rest : list byte) (c : A) :
  (forall rest', D (out ++ rest') = Ok (c, rest')) ->
  D out = Ok (c, [])
  /\ (rest <> [] -> forall rest', D (out ++ rest') = Ok (c, rest')).
Proof.
  intros H. split; [|intros _; exact H].
  specialize (H []). rewrite app_nil_r in H. exact H.
Qed.

(** The chunk that [Chunk.decode] returned is read back from what
    [Chunk.Encode] writes for it, whatever follows; an audio-data chunk
    that took the input to its end is read back at the end of the input. *)
Lemma Chunk_decode_round (r : stream) (c : Chunk) (rest : stream) :
  Chunk_decode r = Ok (c, rest) ->
  exists out c',
    Chunk_Encode c = Ok (out, c') /\ (12 <= length out)%nat
    /\ Chunk_decode out = Ok (c, [])
    /\ (rest <> [] ->
        forall rest', Chunk_decode (out ++ rest') = Ok (c, rest')).
Proof.
  unfold Chunk_decode at 1. intros H. inv_bind H as hdr r1 E.
  apply ReadFull_Ok in E. destruct E as [_ Hhdr].
  change (Z.to_nat 12) with 12%nat in Hhdr.
  pose proof (bytes_parse_ChunkHeader hdr Hhdr) as Hh.
  assert (Hdec : forall p rest',
             Chunk_decode ((hdr ++ p) ++ rest')
             = Chunk_decode_switch (parse_ChunkHeader hdr) (p ++ rest')).
  { intros p rest'. unfold Chunk_decode.
    rewrite <- app_assoc, ReadFull_app by lia. reflexivity. }
  assert (Hlen : forall p, (12 <= length (hdr ++ p))%nat)
    by (intros p; rewrite length_app; lia).
  set (h := parse_ChunkHeader hdr) in *.
  unfold Chunk_decode_switch in H. unfold Chunk_Encode.
  destruct (FourByteString_eqb (ChunkType h) ChunkTypeAudioDescription) eqn:T1;
  [|destruct (FourByteString_eqb (ChunkType h) ChunkTypeChannelLayout) eqn:T2;
  [|destruct (FourByteString_eqb (ChunkType h) ChunkTypeInformation) eqn:T3;
  [|destruct (FourByteString_eqb (ChunkType h) ChunkTypeAudioData) eqn:T4;
  [|destruct (FourByteString_eqb (ChunkType h) ChunkTypePacketTable) eqn:T5;
  [|destruct (FourByteString_eqb (ChunkType h) ChunkTypeMidi) eqn:T6]]]]];
    inv_bind H as cc r2 E; injection H as <- <-;
    cbn [Header Contents];
    rewrite ?T1, ?T2, ?T3, ?T4, ?T5, ?T6, Hh.
  - apply AudioFormat_decode_round in E. destruct E as (out & -> & Hd).
    cbn [bind]. eexists _, _.
    split; [reflexivity|]. split; [apply Hlen|]. apply stable_final.
    intros rest'. rewrite Hdec. unfold Chunk_decode_switch.
    rewrite T1, Hd. reflexivity.
  - apply ChannelLayout_decode_round in E. destruct E as (out & -> & Hd).
    cbn [bind]. eexists _, _.
    split; [reflexivity|]. split; [apply Hlen|]. apply stable_final.
    intros rest'. rewrite Hdec. unfold Chunk_decode_switch.
    rewrite T1, T2, Hd. reflexivity.
  - apply CAFStringsChunk_decode_round in E. destruct E as (out & -> & Hd).
    cbn [bind]. eexists _, _.
    split; [reflexivity|]. split; [apply Hlen|]. apply stable_final.
    intros rest'. rewrite Hdec. unfold Chunk_decode_switch.
    rewrite T1, T2, T3, Hd. reflexivity.
  - apply Data_decode_round in E. destruct E as (out & -> & Hd & Hs).
    cbn [bind]. eexists _, _.
    split; [reflexivity|]. split; [apply Hlen|]. split.
    + rewrite <- (app_nil_r (hdr ++ out)), Hdec, app_nil_r.
      unfold Chunk_decode_switch. rewrite T1, T2, T3, T4, Hd. reflexivity.
    + intros Hne rest'. rewrite Hdec. unfold Chunk_decode_switch.
      rewrite T1, T2, T3, T4, (Hs Hne). reflexivity.
  - apply PacketTable_decode_round in E. destruct E as (out & -> & Hd).
    cbn [bind]. eexists _, _.
    split; [reflexivity|]. split; [apply Hlen|]. apply stable_final.
    intros rest'. rewrite Hdec. unfold Chunk_decode_switch.
    rewrite T1, T2, T3, T4, T5, Hd. reflexivity.
  - pose proof (read_blob_Ok_length _ _ _ _ E) as Hn. eexists _, _.
    split; [reflexivity|]. split; [apply Hlen|]. apply stable_final.
    intros rest'. rewrite Hdec. unfold Chunk_decode_switch.
    rewrite T1, T2, T3, T4, T5, T6, read_blob_app by exact Hn. reflexivity.
  - pose proof (read_blob_Ok_length _ _ _ _ E) as Hn. eexists _, _.
    split; [reflexivity|]. split; [apply Hlen|]. apply stable_final.
    intros rest'. rewrite Hdec. unfold Chunk_decode_switch.
    rewrite T1, T2, T3, T4, T5, T6. cbn [UnknownContents_Data].
    rewrite read_blob_app by exact Hn. reflexivity.
Qed.

Lemma File_Decode_loop_round (fuel : nat) :
  forall (acc : list Chunk) (r : stream) (cs' : list Chunk),
    File_Decode_loop fuel acc r = Ok cs' ->
    exists cs out,
      cs' = acc ++ cs /\ File_Encode_chunks cs = Ok out
      /\ forall (fuel' : nat) (acc' : list Chunk),
           (length out < fuel')%nat ->
           File_Decode_loop fuel' acc' out = Ok (acc' ++ cs).
Proof.
  induction fuel as [|fuel IH]; intros acc r cs' H; [discriminate|].
  cbn [File_Decode_loop] in H.
  destruct (Chunk_decode r) as [[c r1]|e| |] eqn:E; try discriminate.
  - destruct (Chunk_decode_round _ _ _ E)
      as (out & c' & Henc & Hlen & Hfinal & Hstable).
    destruct r1 as [|b r1].
    + destruct fuel as [|fuel]; [discriminate|].
      cbn in H. injection H as <-.
      exists [c], out. split; [reflexivity|].
      cbn [File_Encode_chunks]. rewrite Henc. cbn [bind].
      rewrite app_nil_r. split; [reflexivity|].
      intros [|[|fuel']] acc' Hf; try lia.
      cbn [File_Decode_loop]. rewrite Hfinal. reflexivity.
    + destruct (IH _ _ _ H) as (cs & out2 & -> & Henc2 & Hdec2).
      exists (c :: cs), (out ++ out2). rewrite <- app_assoc.
      split; [reflexivity|].
      cbn [File_Encode_chunks]. rewrite Henc, Henc2. cbn [bind].
      split; [reflexivity|].
      intros [|fuel'] acc' Hf; [lia|].
      cbn [File_Decode_loop]. rewrite Hstable by discriminate.
      rewrite Hdec2 by (rewrite length_app in Hf; lia).
      rewrite <- app_assoc. reflexivity.
  - destruct e; try discriminate. injection H as <-.
    exists [], []. rewrite app_nil_r. split; [reflexivity|].
    split; [reflexivity|].
    intros [|fuel'] acc' Hf; [cbn in Hf; lia|].
    cbn. rewrite app_nil_r. reflexivity.
Qed.

(** X16.  Encoding is a normal form of what was decoded: for any input
    that [File.Decode] accepts, canonical or not, decoding the bytes that
    [File.Encode] writes for the result returns the same file again. *)
Theorem File_Decode_of_reencoded_file (B : list byte) (f : File) :
  File_Decode zero_File B = Ok f ->
  exists out, File_Encode f = Ok out /\ File_Decode zero_File out = Ok f.
Proof.
  unfold File_Decode at 1. unfold FileHeader_Decode. intros H.
  inv_bind H as h r1 E. inv_bind E as buf r2 E2.
  apply ReadFull_Ok in E2. destruct E2 as [_ Hbuf].
  change (Z.to_nat 8) with 8%nat in Hbuf.
  cbv zeta in E.
  destruct (negb (FourByteString_eqb (FileType (parse_FileHeader buf)) caff))
    eqn:Et; [discriminate|].
  injection E as <- <-.
  destruct (File_Decode_loop (S (length r2)) (Chunks zero_File) r2)
    as [cs'| | |] eqn:El; cbn [bind] in H; try discriminate.
  injection H as <-.
  destruct (File_Decode_loop_round _ _ _ _ El)
    as (cs & out & -> & Henc & Hdec).
  cbn [zero_File Chunks app] in *.
  unfold File_Encode, FileHeader_Encode. cbn [File_FileHeader Chunks bind].
  rewrite Henc. cbn [bind]. rewrite bytes_parse_FileHeader by exact Hbuf.
  eexists. split; [reflexivity|].
  unfold File_Decode, FileHeader_Decode.
  rewrite ReadFull_app by (rewrite Hbuf; reflexivity).
  cbn [bind]. cbv zeta. rewrite Et. cbn [bind zero_File Chunks].
  rewrite Hdec by lia. reflexivity.
Qed.

Lemma File_Decode_of_reencoded_file_witness :
  let f :=
    {| File_FileHeader :=
         {| FileType := caff; FileVersion := 1; FileFlags := 0 |};
       Chunks :=
         [{| Header := {| ChunkType := ChunkTypePacketTable;
                          ChunkSize := 26 |};
             Contents :=
               PPacketTable
                 {| PacketTable_Header :=
                      {| NumberPackets := 1; NumberValidFrames := 2048;
                         PrimingFramess := 0; RemainderFrames := 0 |};
                    Entry := [5] |} |}] |} in
  exists out, File_Encode f = Ok out /\ File_Decode zero_File out = Ok f.
Proof.
  intros f.
  apply (File_Decode_of_reencoded_file
           [x63; x61; x66; x66; x00; x01; x00; x00;
            x70; x61; x6b; x74; x00; x00; x00; x00; x00; x00; x00; x1a;
            x00; x00; x00; x00; x00; x00; x00; x01;
            x00; x00; x00; x00; x00; x00; x08; x00;
            x00; x00; x00; x00; x00; x00; x00; x00;
            x80; x05] f).
  vm_compute. reflexivity.
Defined.
